(** * Enigma machine simulator (enigma.js): shallow embedding and properties

    The development follows the source top to bottom: the helper [mod], the
    rotor catalog and reflector table, [plugboardSwap], the class [Rotor]
    and the class [Enigma] with [stepRotors], [encryptChar] and [process].

    Modelling choices.
    - A JavaScript string is the list of its UTF-16 code units; a character
      (an element of [text.split('')]) is one code unit, a number in [N].
    - The numbers the program computes with (positions, ring settings, table
      indices) are integers, modelled in [Z]; the remainder operator [%] of
      JavaScript truncates towards zero and is [Z.rem].
    - A value that may be [undefined] (the result of indexing a string or an
      array) is an [option], with [None] for [undefined].
    - Reading a property of [undefined] raises a [TypeError]; methods of
      [Enigma] mutate [this], so they are computations in a state and error
      monad over the machine. *)

From Stdlib Require Import ZArith List Ascii String Lia.
From stdpp Require Import base numbers option list sets.

Local Open Scope Z_scope.

(** ** Strings and values *)

Definition char := N.
Definition jsstring := list char.

(** A value of the pipeline variable [c]: a one-character string, or
    [undefined]. *)
Definition jsval := option char.

(** String literals of the source, as code units. *)
Definition str (s : string) : jsstring :=
  map N_of_ascii (list_ascii_of_string s).

(** [a[i]] for a string or an array and an integer [i]: [undefined] outside
    [0 .. length-1]. *)
Definition at_index {A : Type} (a : list A) (i : Z) : option A :=
  if decide (0 ≤ i) then a !! Z.to_nat i else None.

(** First index at which [x] occurs, counted from [i]. *)
Fixpoint find_from (s : jsstring) (x : char) (i : Z) : Z :=
  match s with
  | [] => -1
  | y :: s' => if decide (y = x) then i else find_from s' x (i + 1)
  end.

(** [s.indexOf(c)] for a one-character [c]: the first index, or [-1].
    [s.indexOf(undefined)] searches for the text "undefined": [-1] in the
    alphabet, the only string the program can search for [undefined]
    (a wiring is searched for [alphabet[inputPos]], which is a letter). *)
Definition indexOf (s : jsstring) (c : jsval) : Z :=
  match c with
  | Some x => find_from s x 0
  | None => -1
  end.

(** [s.includes(c)] for a one-character [c]. *)
Definition includes (s : jsstring) (c : char) : bool :=
  bool_decide (c ∈ s).

(** [v === a] between a pipeline value and a one-character string. *)
Definition strict_eq (v : jsval) (a : char) : bool :=
  bool_decide (v = Some a).

(** ** Constants and helpers of the source *)

Definition alphabet : jsstring := str "ABCDEFGHIJKLMNOPQRSTUVWXYZ".

(** [function mod(n, m) { return ((n % m) + m) % m; }]  (the name [mod] is a
    keyword of the arithmetic notations). *)
Definition jsmod (n m : Z) : Z := Z.rem (Z.rem n m + m) m.

Record RotorSpec := mkRotorSpec { spec_wiring : jsstring; spec_notch : char }.

Definition ROTORS : list RotorSpec :=
  [ mkRotorSpec (str "EKMFLGDQVZNTOWYHXUSPAIBRCJ") 81   (* Rotor I, notch Q *)
  ; mkRotorSpec (str "AJDKSIRUXBLHWTMCQGZNPYFVOE") 69   (* Rotor II, notch E *)
  ; mkRotorSpec (str "BDFHJLCPRTXVZNYEIWGAKMUSQO") 86 ]%N. (* Rotor III, notch V *)

Definition REFLECTOR : jsstring := str "YRUHQSLDPXNGOKMIEBFZCWVJAT".

(** [REFLECTOR[alphabet.indexOf(c)]] *)
Definition reflect (c : jsval) : jsval :=
  at_index REFLECTOR (indexOf alphabet c).

(** [plugboardSwap(c, pairs)]: the first pair that mentions [c] decides. *)
Fixpoint plugboardSwap (c : jsval) (pairs : list (char * char)) : jsval :=
  match pairs with
  | [] => c
  | (a, b) :: pairs' =>
      if strict_eq c a then Some b
      else if strict_eq c b then Some a
      else plugboardSwap c pairs'
  end.

(** ** class Rotor *)

Record Rotor := mkRotor {
  wiring : jsstring;
  notch : char;
  ringSetting : Z;
  position : Z
}.

(** [constructor(wiring, notch, ringSetting = 0, position = 0)]: a default
    applies when the argument is absent or [undefined]. *)
Definition Rotor_new (w : jsstring) (n : char) (ring pos : option Z) : Rotor :=
  mkRotor w n (default 0 ring) (default 0 pos).

Definition step (r : Rotor) : Rotor :=
  mkRotor (wiring r) (notch r) (ringSetting r) (jsmod (position r + 1) 26).

Definition atNotch (r : Rotor) : bool :=
  strict_eq (at_index alphabet (position r)) (notch r).

(** The local constants of [forward], under the names of the source. *)
Definition inputPos (r : Rotor) (c : jsval) : Z :=
  jsmod (indexOf alphabet c + position r - ringSetting r) 26.

Definition outputChar (r : Rotor) (c : jsval) : jsval :=
  at_index (wiring r) (inputPos r c).

Definition forward_outputPos (r : Rotor) (c : jsval) : Z :=
  jsmod (indexOf alphabet (outputChar r c) - position r + ringSetting r) 26.

Definition forward (r : Rotor) (c : jsval) : jsval :=
  at_index alphabet (forward_outputPos r c).

(** The local constants of [backward]; its [inputPos] is that of [forward]. *)
Definition wiringPos (r : Rotor) (c : jsval) : Z :=
  indexOf (wiring r) (at_index alphabet (inputPos r c)).

Definition backward_outputPos (r : Rotor) (c : jsval) : Z :=
  jsmod (wiringPos r c - position r + ringSetting r) 26.

Definition backward (r : Rotor) (c : jsval) : jsval :=
  at_index alphabet (backward_outputPos r c).

(** ** class Enigma *)

Record Enigma := mkEnigma {
  rotors : list Rotor;
  plugboardPairs : list (char * char)
}.

Inductive result (A : Type) : Type :=
  | Ok (a : A)
  | TypeError.
Arguments Ok {A} a.
Arguments TypeError {A}.

(** [rotorIDs.map((id, i) => new Rotor(ROTORS[id].wiring, ROTORS[id].notch,
    ringSettings[i], rotorPositions[i]))], from index [i] on: reading
    [.wiring] of an absent catalog entry raises. *)
Fixpoint make_rotors (rotorIDs : list Z) (i : nat)
    (rotorPositions ringSettings : list Z) : result (list Rotor) :=
  match rotorIDs with
  | [] => Ok []
  | id :: ids =>
      match at_index ROTORS id with
      | None => TypeError
      | Some entry =>
          let r := Rotor_new (spec_wiring entry) (spec_notch entry)
                     (ringSettings !! i) (rotorPositions !! i) in
          match make_rotors ids (S i) rotorPositions ringSettings with
          | Ok rs => Ok (r :: rs)
          | TypeError => TypeError
          end
      end
  end.

(** [new Enigma(...)]: every call builds its own [Rotor] objects, so two
    machines built from the same arguments share no mutable state (the pair
    list is shared but never written). *)
Definition Enigma_new (rotorIDs rotorPositions ringSettings : list Z)
    (pairs : list (char * char)) : result Enigma :=
  match make_rotors rotorIDs 0 rotorPositions ringSettings with
  | Ok rs => Ok (mkEnigma rs pairs)
  | TypeError => TypeError
  end.

(** Methods of a machine: the machine is threaded, an exception ends the
    computation. *)
Definition M (A : Type) : Type := Enigma → result (A * Enigma).

Definition ret {A} (a : A) : M A := λ e, Ok (a, e).

Definition bind {A B} (m : M A) (k : A → M B) : M B :=
  λ e, match m e with
       | Ok (a, e') => k a e'
       | TypeError => TypeError
       end.

Declare Scope enigma_scope.
Delimit Scope enigma_scope with enigma.
Notation "'let*' x := m 'in' k" := (bind m (λ x, k))
  (at level 10, x name, m at level 100, k at level 200) : enigma_scope.
Notation "m >> k" := (bind m (λ _, k))
  (at level 100, k at level 200, right associativity) : enigma_scope.
Local Open Scope enigma_scope.

(** [this.rotors[i].atNotch()] *)
Definition rotor_atNotch (i : nat) : M bool :=
  λ e, match rotors e !! i with
       | Some r => Ok (atNotch r, e)
       | None => TypeError
       end.

(** [this.rotors[i].step()]: the rotor object is updated in place. *)
Definition rotor_step (i : nat) : M unit :=
  λ e, match rotors e !! i with
       | Some r => Ok (tt, mkEnigma (<[i := step r]> (rotors e)) (plugboardPairs e))
       | None => TypeError
       end.

Definition when (b : bool) (m : M unit) : M unit := if b then m else ret tt.

Definition stepRotors : M unit :=
  let* middleAtNotch := rotor_atNotch 1 in
  let* rightAtNotch := rotor_atNotch 2 in
  when rightAtNotch (rotor_step 1) >>
  let* middleNowAtNotch := rotor_atNotch 1 in
  when (middleAtNotch || middleNowAtNotch) (rotor_step 0 >> rotor_step 1) >>
  rotor_step 2.

(** The substitution of [encryptChar] once the rotors have stepped: plugboard,
    rotors from the last to the first, reflector, rotors from the first to the
    last, plugboard. *)
Definition substitute (e : Enigma) (c : char) : jsval :=
  let c := plugboardSwap (Some c) (plugboardPairs e) in
  let c := foldr forward c (rotors e) in
  let c := reflect c in
  let c := foldl (λ c r, backward r c) c (rotors e) in
  plugboardSwap c (plugboardPairs e).

Definition encryptChar (c : char) : M jsval :=
  if negb (includes alphabet c) then ret (Some c)
  else stepRotors >> (λ e, Ok (substitute e c, e)).

(** [xs.map(f)] for an effectful [f], in index order. *)
Fixpoint mapM {A B} (f : A → M B) (xs : list A) : M (list B) :=
  match xs with
  | [] => ret []
  | x :: xs' =>
      let* y := f x in
      let* ys := mapM f xs' in
      ret (y :: ys)
  end.

(** [vs.join('')]: an [undefined] element contributes the empty string. *)
Definition join (vs : list jsval) : jsstring :=
  concat (map (λ v, match v with Some c => [c] | None => [] end) vs).

Definition process (text : jsstring) : M jsstring :=
  let* cs := mapM encryptChar text in
  ret (join cs).

(** ** promptEnigma *)

(** [upper.match(/([A-Z]{2})/g)?.map((pair) => [pair[0], pair[1]]) || []]:
    the successive matches of two adjacent upper-case letters, left to right
    and without overlap, each as a pair; no match at all gives the empty
    list. *)
Fixpoint match_pairs (upper : jsstring) : list (char * char) :=
  match upper with
  | a :: (b :: rest) as tail =>
      if includes alphabet a && includes alphabet b
      then (a, b) :: match_pairs rest
      else match_pairs tail
  | _ => []
  end.

(** What [promptEnigma] prints after "Output:", from the four answers read.
    [rotorPositions] and [ringSettings] are the values of
    [posStr.split(' ').map(Number)] and [ringStr.split(' ').map(Number)] when
    every entry read is an integer; [upperPlugStr] is the value of
    [plugStr.toUpperCase()]. *)
Definition promptEnigma_output (message : jsstring)
    (rotorPositions ringSettings : list Z) (upperPlugStr : jsstring)
    : result jsstring :=
  let plugPairs := match_pairs upperPlugStr in
  match Enigma_new [0; 1; 2] rotorPositions ringSettings plugPairs with
  | Ok enigma =>
      match process message enigma with
      | Ok (out, _) => Ok out
      | TypeError => TypeError
      end
  | TypeError => TypeError
  end.

(** ** Vocabulary of the specification *)

(** A construction request: the four arguments of [new Enigma(...)]. *)
Record Config := mkConfig {
  rotorIDs : list Z;
  rotorPositions : list Z;
  ringSettings : list Z;
  plugPairs : list (char * char)
}.

Definition construct (K : Config) : result Enigma :=
  Enigma_new (rotorIDs K) (rotorPositions K) (ringSettings K) (plugPairs K).

Definition in_0_25 (x : Z) : bool := (0 <=? x) && (x <=? 25).

Definition known_rotor (id : Z) : bool := (0 <=? id) && (id <? 3).

(** [x] is one of the two letters of some pair. *)
Definition mentioned (x : char) (pairs : list (char * char)) : bool :=
  existsb (λ p, bool_decide (x = p.1) || bool_decide (x = p.2)) pairs.

(** Each letter appears in at most one pair. *)
Fixpoint one_pair_per_letter (pairs : list (char * char)) : bool :=
  match pairs with
  | [] => true
  | (a, b) :: pairs' =>
      negb (mentioned a pairs') && negb (mentioned b pairs')
      && one_pair_per_letter pairs'
  end.

Definition letter_pairs (pairs : list (char * char)) : bool :=
  forallb (λ p, includes alphabet p.1 && includes alphabet p.2) pairs.

(** A machine built from the catalog: three catalog rotors, three positions
    and three ring settings in [0,25], plugboard pairs of upper-case letters. *)
Definition catalog_config (K : Config) : bool :=
  bool_decide (length (rotorIDs K) = 3%nat) && forallb known_rotor (rotorIDs K)
  && bool_decide (length (rotorPositions K) = 3%nat)
  && forallb in_0_25 (rotorPositions K)
  && bool_decide (length (ringSettings K) = 3%nat)
  && forallb in_0_25 (ringSettings K)
  && letter_pairs (plugPairs K).

(** A valid configuration: moreover each letter is in at most one pair. *)
Definition valid_config (K : Config) : bool :=
  catalog_config K && one_pair_per_letter (plugPairs K).

(** A malformed configuration in the sense of the error taxonomy: wrong rotor
    count, an unknown rotor identifier, or a position or ring setting outside
    [0,25]. *)
Definition malformed (K : Config) : bool :=
  negb (bool_decide (length (rotorIDs K) = 3%nat))
  || negb (forallb known_rotor (rotorIDs K))
  || negb (forallb in_0_25 (rotorPositions K))
  || negb (forallb in_0_25 (ringSettings K)).

Definition uppercase_only (m : jsstring) : bool := forallb (includes alphabet) m.

(** Number of alphabetic characters of a text. *)
Definition letters_in (m : jsstring) : nat :=
  length (filter (λ c, c ∈ alphabet) m).

(** The stepping controller as the specification words it, on the triple
    (left, middle, right): record the middle notch, step the middle if the
    right is at its notch, record the middle notch again, step left and
    middle if either record holds, step the right. *)
Definition stepping_controller (left middle right : Rotor)
    : Rotor * Rotor * Rotor :=
  let middle_at_notch_before := atNotch middle in
  let middle1 := if atNotch right then step middle else middle in
  let middle_at_notch_after := atNotch middle1 in
  let '(left2, middle2) :=
    if middle_at_notch_before || middle_at_notch_after
    then (step left, step middle1) else (left, middle1) in
  (left2, middle2, step right).

(** States a machine can be driven into: by any sequence of [encryptChar]. *)
Inductive reaches (e : Enigma) : Enigma → Prop :=
  | reaches_here : reaches e e
  | reaches_key e1 c v e2 :
      reaches e e1 → encryptChar c e1 = Ok (v, e2) → reaches e e2.

(** The table indices one call of a rotor method computes, in source order:
    [alphabet.indexOf(c)], [inputPos], the second [indexOf], [outputPos]. *)
Definition forward_indices (r : Rotor) (c : jsval) : list Z :=
  [ indexOf alphabet c; inputPos r c;
    indexOf alphabet (outputChar r c); forward_outputPos r c ].

Definition backward_indices (r : Rotor) (c : jsval) : list Z :=
  [ indexOf alphabet c; inputPos r c; wiringPos r c; backward_outputPos r c ].

(** The indices of the first loop of [encryptChar] (last rotor first). *)
Fixpoint forward_loop_indices (rs : list Rotor) (c : jsval) : list Z :=
  match rs with
  | [] => []
  | r :: rs' =>
      forward_loop_indices rs' c ++ forward_indices r (foldr forward c rs')
  end.

(** The indices of the second loop (first rotor first). *)
Fixpoint backward_loop_indices (rs : list Rotor) (c : jsval) : list Z :=
  match rs with
  | [] => []
  | r :: rs' => backward_indices r c ++ backward_loop_indices rs' (backward r c)
  end.

(** Every index [substitute] computes: first loop, reflector, second loop. *)
Definition substitute_indices (e : Enigma) (c : char) : list Z :=
  let c1 := plugboardSwap (Some c) (plugboardPairs e) in
  let c2 := foldr forward c1 (rotors e) in
  let c3 := reflect c2 in
  forward_loop_indices (rotors e) c1 ++ [indexOf alphabet c2]
  ++ backward_loop_indices (rotors e) c3.

(** The invariant of a correctly configured machine. *)
Definition wf_rotor (r : Rotor) : Prop :=
  wiring r ≡ₚ alphabet ∧ 0 ≤ position r ≤ 25 ∧ 0 ≤ ringSetting r ≤ 25.

Record wf_machine (e : Enigma) : Prop := mk_wf {
  wf_three : length (rotors e) = 3%nat;
  wf_rotors : Forall wf_rotor (rotors e);
  wf_letters : letter_pairs (plugboardPairs e) = true
}.

(** The reflector check for one letter: the image is a letter, differs from
    the letter, and is sent back to it. *)
Definition reflect_ok (c : char) : bool :=
  match reflect (Some c) with
  | Some d =>
      includes alphabet d && negb (bool_decide (d = c))
      && bool_decide (reflect (Some d) = Some c)
  | None => false
  end.

(** Configurations and a rotor used as examples. *)
Definition plugged_config : Config :=
  mkConfig [0; 1; 2] [1; 2; 3] [2; 4; 6] [(65, 66); (67, 68)]%N.

Definition default_config : Config :=
  mkConfig [0; 1; 2] [0; 0; 0] [0; 0; 0] [].

Definition out_of_range_config : Config :=
  mkConfig [0; 1; 2] [0; 0; 26] [0; -1; 0] [].

Definition two_rotor_config : Config :=
  mkConfig [0; 1] [0; 0] [0; 0] [].

Definition rotor_I_5_3 : Rotor :=
  mkRotor (str "EKMFLGDQVZNTOWYHXUSPAIBRCJ") 81%N 3 5.

Definition four_rotor_machine : Enigma :=
  mkEnigma [ mkRotor (str "EKMFLGDQVZNTOWYHXUSPAIBRCJ") 81%N 0 0
           ; mkRotor (str "AJDKSIRUXBLHWTMCQGZNPYFVOE") 69%N 0 3
           ; mkRotor (str "BDFHJLCPRTXVZNYEIWGAKMUSQO") 86%N 0 21
           ; mkRotor (str "EKMFLGDQVZNTOWYHXUSPAIBRCJ") 81%N 9 7 ]
           [(65, 66)]%N.

(** One bare key press: the machine after [stepRotors] (unchanged when
    [stepRotors] raises). *)
Definition press (e : Enigma) : Enigma :=
  match stepRotors e with
  | Ok (_, e') => e'
  | TypeError => e
  end.

(** What the substitution needs of a machine, and no more: at least three
    rotors, each wiring a permutation of the alphabet, letter pairs. *)
Record sound_machine (e : Enigma) : Prop := mk_sound {
  sound_count : (3 ≤ length (rotors e))%nat;
  sound_wirings : Forall (λ r, wiring r ≡ₚ alphabet) (rotors e);
  sound_letters : letter_pairs (plugboardPairs e) = true
}.

(** The machine [e'] has the set-up of [e]: the same plugboard and, rotor by
    rotor, the same wiring, notch and ring setting; rotors after the third
    are the same altogether. *)
Definition same_setup (e e' : Enigma) : Prop :=
  plugboardPairs e' = plugboardPairs e
  ∧ length (rotors e') = length (rotors e)
  ∧ ∀ (k : nat) r r', rotors e !! k = Some r → rotors e' !! k = Some r' →
      wiring r' = wiring r ∧ notch r' = notch r
      ∧ ringSetting r' = ringSetting r
      ∧ ((3 ≤ k)%nat → r' = r).

(** What the constructor and the substitution need of a configuration, and
    no more: three or more catalog rotors, letter pairs, each letter in at
    most one pair.  Positions and ring settings are any integers, any
    number of them. *)
Definition usable_config (K : Config) : bool :=
  bool_decide (3 ≤ length (rotorIDs K))%nat && forallb known_rotor (rotorIDs K)
  && letter_pairs (plugPairs K) && one_pair_per_letter (plugPairs K).

Definition unchecked_config : Config :=
  mkConfig [2; 0; 1; 0] [-3; 100] [26; 0; -7] [(65, 90); (81, 69)]%N.

(** The rotor [r'] is [r] turned: all but the position is the same. *)
Definition turned (r r' : Rotor) : Prop :=
  wiring r' = wiring r ∧ notch r' = notch r ∧ ringSetting r' = ringSetting r.

(** How one character of a text shows in the output: a letter becomes
    another letter, any other character is copied. *)
Definition enciphered (c d : char) : Prop :=
  if decide (c ∈ alphabet) then d ∈ alphabet ∧ d ≠ c else d = c.

(** A plugboard answer in the format the prompt asks for ("AB CD"): the
    pairs, with the separator [sep] between them. *)
Fixpoint render_pairs (sep : char) (pairs : list (char * char)) : jsstring :=
  match pairs with
  | [] => []
  | (a, b) :: rest =>
      match rest with
      | [] => [a; b]
      | _ :: _ => a :: b :: sep :: render_pairs sep rest
      end
  end.

(** * Properties *)

(** Closed facts about concrete runs are settled by evaluation, one conjunct
    after the other. *)
Ltac evaluate :=
  repeat (match goal with |- _ ∧ _ => split; [vm_compute; reflexivity|] end);
  vm_compute; reflexivity.

Example process_HELLO :
  ∃ A B e1 e2,
    Enigma_new [0; 1; 2] [0; 0; 0] [0; 0; 0] [] = Ok A
    ∧ Enigma_new [0; 1; 2] [0; 0; 0] [0; 0; 0] [] = Ok B
    ∧ process (str "HELLO") A = Ok (str "ILBDA", e1)
    ∧ process (str "ILBDA") B = Ok (str "HELLO", e2).
Proof. do 4 eexists. evaluate. Qed.

(** The cases of the repository's test file, evaluated on the model. *)

Example test_reciprocity_rings :
  ∃ A c A' B',
    Enigma_new [0; 1; 2] [0; 0; 0] [3; 7; 11] [] = Ok A
    ∧ process (str "ENIGMA") A = Ok (c, A')
    ∧ process c A = Ok (str "ENIGMA", B').
Proof. do 4 eexists. evaluate. Qed.

Example test_reciprocity_long :
  ∃ A c A' B',
    construct default_config = Ok A
    ∧ process (str "THISISALONGERMESSAGETOTESTX") A = Ok (c, A')
    ∧ length c = 27%nat
    ∧ process c A = Ok (str "THISISALONGERMESSAGETOTESTX", B').
Proof. do 4 eexists. evaluate. Qed.

Example test_mixed_content :
  ∃ A out A',
    construct default_config = Ok A
    ∧ process (str "HELLO123!@#world") A = Ok (out, A')
    ∧ out = str "ILBDA123!@#world".
Proof. do 3 eexists. evaluate. Qed.

Example test_double_stepping :
  ∃ A v A',
    Enigma_new [0; 1; 2] [0; 3; 21] [0; 0; 0] [] = Ok A
    ∧ encryptChar 65%N A = Ok (v, A')
    ∧ position <$> rotors A' = [1; 5; 22].
Proof. do 3 eexists. evaluate. Qed.

(** Fewer than three rotors: the first letter raises, other text does not. *)
Example two_rotors_raise :
  ∃ A,
    construct two_rotor_config = Ok A
    ∧ process (str "12") A = Ok (str "12", A)
    ∧ process (str "1A") A = TypeError.
Proof. eexists. evaluate. Qed.

(** ** Arithmetic and table lookups *)

Lemma jsmod_26 n : jsmod n 26 = n mod 26.
Proof.
  unfold jsmod.
  pose proof (Z.rem_bound_abs n 26 ltac:(lia)) as Hb.
  pose proof (Z.quot_rem' n 26) as Hq.
  rewrite Z.rem_mod_nonneg by lia.
  replace (Z.rem n 26 + 26) with (n + (1 - n ÷ 26) * 26) by lia.
  apply Z_mod_plus_full.
Qed.

Lemma jsmod_26_range n : 0 ≤ jsmod n 26 ≤ 25.
Proof. rewrite jsmod_26. pose proof (Z.mod_pos_bound n 26 ltac:(lia)). lia. Qed.

Lemma jsmod_26_small n : 0 ≤ n ≤ 25 → jsmod n 26 = n.
Proof. intros. rewrite jsmod_26. apply Z.mod_small. lia. Qed.

(** Undoing the offset of a rotor: the two offsets of [forward] and
    [backward] cancel modulo 26. *)
Lemma jsmod_offset_in a p r : jsmod (jsmod (a + p - r) 26 - p + r) 26 = jsmod a 26.
Proof.
  rewrite !jsmod_26.
  replace ((a + p - r) mod 26 - p + r) with ((a + p - r) mod 26 + (r - p)) by lia.
  rewrite Zplus_mod_idemp_l. f_equal. lia.
Qed.

Lemma jsmod_offset_out a p r : jsmod (jsmod (a - p + r) 26 + p - r) 26 = jsmod a 26.
Proof.
  rewrite !jsmod_26.
  replace ((a - p + r) mod 26 + p - r) with ((a - p + r) mod 26 + (p - r)) by lia.
  rewrite Zplus_mod_idemp_l. f_equal. lia.
Qed.

Lemma at_index_Some {A} (a : list A) i x :
  at_index a i = Some x ↔ 0 ≤ i ∧ a !! Z.to_nat i = Some x.
Proof.
  unfold at_index. case_decide as Hi; split.
  - by intros ?.
  - by intros [_ ?].
  - by intros ?.
  - intros [? _]. lia.
Qed.

Lemma at_index_in_range {A} (a : list A) i :
  0 ≤ i < Z.of_nat (length a) → ∃ x, at_index a i = Some x ∧ x ∈ a.
Proof.
  intros Hi. destruct (lookup_lt_is_Some_2 a (Z.to_nat i)) as [x Hx]; [lia|].
  exists x. split; [apply at_index_Some; split; [lia|done]|].
  by eapply list_elem_of_lookup_2.
Qed.

Lemma find_from_present s x i :
  x ∈ s → ∃ k : nat, find_from s x i = i + Z.of_nat k ∧ s !! k = Some x.
Proof.
  revert i. induction s as [|y s IH]; intros i Hx; simpl; [set_solver|].
  case_decide as Hy.
  - subst. exists 0%nat. split; [lia|done].
  - apply elem_of_cons in Hx as [->|Hx]; [done|].
    destruct (IH (i + 1) Hx) as (k & Hk & Hl).
    exists (S k). split; [lia|done].
Qed.

Lemma find_from_lookup s x i (k : nat) :
  NoDup s → s !! k = Some x → find_from s x i = i + Z.of_nat k.
Proof.
  intros Hnd Hk. destruct (find_from_present s x i) as (k' & Hf & Hk').
  { by eapply list_elem_of_lookup_2. }
  rewrite Hf. f_equal. f_equal. by eapply NoDup_lookup.
Qed.

(** [s[s.indexOf(c)]] is [c] when [c] occurs in [s]. *)
Lemma indexOf_present s x :
  x ∈ s → 0 ≤ indexOf s (Some x) < Z.of_nat (length s)
          ∧ at_index s (indexOf s (Some x)) = Some x.
Proof.
  intros Hx. destruct (find_from_present s x 0 Hx) as (k & Hf & Hk).
  simpl. rewrite Hf. pose proof (lookup_lt_Some _ _ _ Hk).
  split; [lia|]. apply at_index_Some. split; [lia|].
  by replace (Z.to_nat (0 + Z.of_nat k)) with k by lia.
Qed.

(** [s.indexOf(s[i])] is [i] when no character repeats in [s]. *)
Lemma indexOf_at_index s i x :
  NoDup s → at_index s i = Some x → indexOf s (Some x) = i.
Proof.
  intros Hnd [Hi Hx]%at_index_Some. simpl.
  rewrite (find_from_lookup s x 0 (Z.to_nat i)) by done. lia.
Qed.

(** ** The alphabet and the strings that permute it *)

(** Closed decidable facts about the tables are settled by evaluation. *)
Ltac by_evaluation := apply (bool_decide_unpack _); vm_compute; exact I.

Lemma alphabet_NoDup : NoDup alphabet.
Proof. by_evaluation. Qed.

Lemma includes_true s c : includes s c = true ↔ c ∈ s.
Proof. unfold includes. rewrite bool_decide_eq_true. done. Qed.

Lemma includes_false s c : includes s c = false ↔ c ∉ s.
Proof. unfold includes. rewrite bool_decide_eq_false. done. Qed.

Section permuted_table.
(** A table [s] holding each letter exactly once: the alphabet itself, or
    the wiring of a rotor. *)
Variable s : jsstring.
Hypothesis Hperm : s ≡ₚ alphabet.

Lemma table_length : length s = 26%nat.
Proof. by rewrite Hperm. Qed.

Lemma table_NoDup : NoDup s.
Proof. rewrite Hperm. apply alphabet_NoDup. Qed.

Lemma table_elem x : x ∈ s ↔ x ∈ alphabet.
Proof. by rewrite Hperm. Qed.

Lemma table_at i :
  0 ≤ i ≤ 25 →
  ∃ x, at_index s i = Some x ∧ x ∈ alphabet ∧ indexOf s (Some x) = i.
Proof.
  intros Hi. destruct (at_index_in_range s i) as (x & Hx & Hin).
  { rewrite table_length. lia. }
  exists x. split; [done|]. split; [by apply table_elem|].
  by apply indexOf_at_index; [apply table_NoDup|].
Qed.

Lemma table_index x :
  x ∈ alphabet →
  0 ≤ indexOf s (Some x) ≤ 25 ∧ at_index s (indexOf s (Some x)) = Some x.
Proof.
  intros Hx%table_elem. destruct (indexOf_present s x Hx) as [Hr Ha].
  rewrite table_length in Hr. split; [lia|done].
Qed.
End permuted_table.

Lemma alphabet_at i :
  0 ≤ i ≤ 25 →
  ∃ x, at_index alphabet i = Some x ∧ x ∈ alphabet
       ∧ indexOf alphabet (Some x) = i.
Proof. by apply table_at. Qed.

Lemma alphabet_index x :
  x ∈ alphabet →
  0 ≤ indexOf alphabet (Some x) ≤ 25
  ∧ at_index alphabet (indexOf alphabet (Some x)) = Some x.
Proof. by apply table_index. Qed.

(** ** Rotor *)

Lemma forward_letter r v : ∃ d, forward r v = Some d ∧ d ∈ alphabet.
Proof.
  unfold forward, forward_outputPos.
  destruct (alphabet_at (jsmod (indexOf alphabet (outputChar r v)
            - position r + ringSetting r) 26)) as (d & Hd & Hin & _).
  { apply jsmod_26_range. }
  eauto.
Qed.

Lemma backward_letter r v : ∃ d, backward r v = Some d ∧ d ∈ alphabet.
Proof.
  unfold backward, backward_outputPos.
  destruct (alphabet_at (jsmod (wiringPos r v - position r + ringSetting r) 26))
    as (d & Hd & Hin & _).
  { apply jsmod_26_range. }
  eauto.
Qed.

Section rotor_inverse.
Variable r : Rotor.
Hypothesis Hperm : wiring r ≡ₚ alphabet.

(** The facts behind one pass through [forward]: the wire entered, the
    letter it leads to, and the indices on the way. *)
Lemma forward_path c :
  c ∈ alphabet →
  ∃ w d,
    0 ≤ indexOf alphabet (Some c) ≤ 25
    ∧ 0 ≤ inputPos r (Some c) ≤ 25
    ∧ outputChar r (Some c) = Some w ∧ w ∈ alphabet
    ∧ indexOf (wiring r) (Some w) = inputPos r (Some c)
    ∧ 0 ≤ indexOf alphabet (Some w) ≤ 25
    ∧ 0 ≤ forward_outputPos r (Some c) ≤ 25
    ∧ forward r (Some c) = Some d ∧ d ∈ alphabet
    ∧ indexOf alphabet (Some d) = forward_outputPos r (Some c).
Proof.
  intros Hc. destruct (alphabet_index c Hc) as [Ha _].
  pose proof (jsmod_26_range (indexOf alphabet (Some c) + position r
                              - ringSetting r)) as Hi.
  fold (inputPos r (Some c)) in Hi.
  destruct (table_at (wiring r) Hperm _ Hi) as (w & Hw & Hwin & Hwi).
  destruct (alphabet_index w Hwin) as [Hj _].
  pose proof (jsmod_26_range (indexOf alphabet (outputChar r (Some c))
                              - position r + ringSetting r)) as Ho.
  fold (forward_outputPos r (Some c)) in Ho.
  destruct (alphabet_at _ Ho) as (d & Hd & Hdin & Hdi).
  exists w, d. unfold outputChar. rewrite Hw. unfold forward. done.
Qed.

(** The same for [backward]. *)
Lemma backward_path c :
  c ∈ alphabet →
  ∃ x d,
    0 ≤ indexOf alphabet (Some c) ≤ 25
    ∧ 0 ≤ inputPos r (Some c) ≤ 25
    ∧ at_index alphabet (inputPos r (Some c)) = Some x ∧ x ∈ alphabet
    ∧ indexOf alphabet (Some x) = inputPos r (Some c)
    ∧ 0 ≤ wiringPos r (Some c) ≤ 25
    ∧ at_index (wiring r) (wiringPos r (Some c)) = Some x
    ∧ 0 ≤ backward_outputPos r (Some c) ≤ 25
    ∧ backward r (Some c) = Some d ∧ d ∈ alphabet
    ∧ indexOf alphabet (Some d) = backward_outputPos r (Some c).
Proof.
  intros Hc. destruct (alphabet_index c Hc) as [Ha _].
  pose proof (jsmod_26_range (indexOf alphabet (Some c) + position r
                              - ringSetting r)) as Hi.
  fold (inputPos r (Some c)) in Hi.
  destruct (alphabet_at _ Hi) as (x & Hx & Hxin & Hxi).
  destruct (table_index (wiring r) Hperm x Hxin) as [Hk Hkx].
  pose proof (jsmod_26_range (wiringPos r (Some c)
                              - position r + ringSetting r)) as Ho.
  fold (backward_outputPos r (Some c)) in Ho.
  destruct (alphabet_at _ Ho) as (d & Hd & Hdin & Hdi).
  exists x, d. unfold wiringPos. rewrite Hx. unfold backward. done.
Qed.

Lemma backward_forward c :
  c ∈ alphabet → backward r (forward r (Some c)) = Some c.
Proof.
  intros Hc.
  destruct (forward_path c Hc)
    as (w & d & Ha & Hi & Hw & Hwin & Hwi & Hj & Ho & Hd & Hdin & Hdi).
  destruct (alphabet_index c Hc) as [_ Hca].
  destruct (alphabet_index w Hwin) as [_ Hwa].
  rewrite Hd. unfold backward, backward_outputPos, wiringPos.
  assert (inputPos r (Some d) = indexOf alphabet (Some w)) as ->.
  { unfold inputPos at 1. rewrite Hdi. unfold forward_outputPos.
    rewrite Hw, jsmod_offset_out. by apply jsmod_26_small. }
  rewrite Hwa, Hwi. unfold inputPos.
  rewrite jsmod_offset_in, jsmod_26_small by done. done.
Qed.

Lemma forward_backward c :
  c ∈ alphabet → forward r (backward r (Some c)) = Some c.
Proof.
  intros Hc.
  destruct (backward_path c Hc)
    as (x & d & Ha & Hi & Hx & Hxin & Hxi & Hk & Hkx & Ho & Hd & Hdin & Hdi).
  destruct (alphabet_index c Hc) as [_ Hca].
  rewrite Hd. unfold forward, forward_outputPos, outputChar.
  assert (inputPos r (Some d) = wiringPos r (Some c)) as ->.
  { unfold inputPos at 1. rewrite Hdi. unfold backward_outputPos.
    rewrite jsmod_offset_out. by apply jsmod_26_small. }
  rewrite Hkx, Hxi. unfold inputPos.
  rewrite jsmod_offset_in, jsmod_26_small by done. done.
Qed.
End rotor_inverse.

(** ** Plugboard *)

Lemma plugboardSwap_cons c a b pairs :
  plugboardSwap (Some c) ((a, b) :: pairs)
  = if decide (c = a) then Some b
    else if decide (c = b) then Some a
    else plugboardSwap (Some c) pairs.
Proof.
  simpl. unfold strict_eq.
  repeat (case_bool_decide; simplify_eq); repeat case_decide; congruence.
Qed.

Lemma plugboardSwap_defined c pairs : ∃ d, plugboardSwap (Some c) pairs = Some d.
Proof.
  induction pairs as [|[a b] pairs IH]; [by exists c|].
  rewrite plugboardSwap_cons. repeat case_decide; eauto.
Qed.

(** A letter the plugboard moves lands on a plugged letter. *)
Lemma plugboardSwap_moved c d pairs :
  plugboardSwap (Some c) pairs = Some d → d ≠ c → mentioned d pairs = true.
Proof.
  induction pairs as [|[a b] pairs IH]; [naive_solver|].
  rewrite plugboardSwap_cons. intros Hs Hne. simpl.
  rewrite !orb_true_iff, !bool_decide_eq_true.
  repeat case_decide; simplify_eq; auto.
Qed.

Lemma plugboardSwap_symmetric pairs a b :
  one_pair_per_letter pairs = true →
  plugboardSwap (Some a) pairs = Some b → plugboardSwap (Some b) pairs = Some a.
Proof.
  induction pairs as [|[x y] pairs IH]; [naive_solver|].
  simpl one_pair_per_letter.
  rewrite !andb_true_iff, !negb_true_iff. intros [[Hx Hy] Hok].
  rewrite !plugboardSwap_cons. intros Hs.
  destruct (decide (a = x)) as [->|Hax].
  { simplify_eq. repeat case_decide; congruence. }
  destruct (decide (a = y)) as [->|Hay].
  { simplify_eq. repeat case_decide; congruence. }
  destruct (decide (b = a)) as [->|Hba].
  { rewrite !decide_False by done. done. }
  pose proof (plugboardSwap_moved _ _ _ Hs Hba) as Hm.
  rewrite !decide_False by congruence. auto.
Qed.

Lemma plugboardSwap_letter pairs c d :
  letter_pairs pairs = true → c ∈ alphabet →
  plugboardSwap (Some c) pairs = Some d → d ∈ alphabet.
Proof.
  induction pairs as [|[x y] pairs IH]; [naive_solver|].
  simpl letter_pairs. rewrite !andb_true_iff, !includes_true.
  intros [[Hx Hy] Hl] Hc. rewrite plugboardSwap_cons.
  repeat case_decide; naive_solver.
Qed.

(** ** Reflector *)

Lemma reflect_letter c :
  c ∈ alphabet →
  ∃ d, reflect (Some c) = Some d ∧ d ∈ alphabet ∧ d ≠ c
       ∧ reflect (Some d) = Some c.
Proof.
  intros Hc.
  assert (forallb reflect_ok alphabet = true) as Hall by (vm_compute; reflexivity).
  rewrite forallb_forall in Hall.
  specialize (Hall c (proj1 (list_elem_of_In _ _) Hc)).
  unfold reflect_ok in Hall. destruct (reflect (Some c)) as [d|]; [|done].
  rewrite !andb_true_iff, negb_true_iff, includes_true in Hall.
  destruct Hall as [[Hd Hne] Hback].
  rewrite bool_decide_eq_false in Hne. rewrite bool_decide_eq_true in Hback.
  eauto.
Qed.

(** ** The two loops over the rotors *)

Lemma forward_loop_letter rs c :
  c ∈ alphabet → ∃ d, foldr forward (Some c) rs = Some d ∧ d ∈ alphabet.
Proof. intros Hc. destruct rs; simpl; [eauto|apply forward_letter]. Qed.

Lemma backward_loop_letter rs c :
  c ∈ alphabet →
  ∃ d, foldl (λ c r, backward r c) (Some c) rs = Some d ∧ d ∈ alphabet.
Proof.
  revert c. induction rs as [|r rs IH]; intros c Hc; simpl; [eauto|].
  destruct (backward_letter r (Some c)) as (d & -> & Hd). auto.
Qed.

Lemma backward_forward_loop rs c :
  Forall wf_rotor rs → c ∈ alphabet →
  foldl (λ c r, backward r c) (foldr forward (Some c) rs) rs = Some c.
Proof.
  induction 1 as [|r rs [Hperm _] _ IH]; intros Hc; simpl; [done|].
  destruct (forward_loop_letter rs c Hc) as (d & Hd & Hdin).
  rewrite Hd, backward_forward by done. rewrite <- Hd. by apply IH.
Qed.

Lemma forward_backward_loop rs c :
  Forall wf_rotor rs → c ∈ alphabet →
  foldr forward (foldl (λ c r, backward r c) (Some c) rs) rs = Some c.
Proof.
  intros Hwf. revert c.
  induction Hwf as [|r rs [Hperm _] _ IH]; intros c Hc; simpl; [done|].
  destruct (backward_letter r (Some c)) as (d & Hd & Hdin).
  rewrite Hd, IH by done. rewrite <- Hd. by apply forward_backward.
Qed.

Lemma forward_loop_indices_ok rs c :
  Forall wf_rotor rs → c ∈ alphabet →
  Forall (λ i, 0 ≤ i ≤ 25) (forward_loop_indices rs (Some c)).
Proof.
  induction 1 as [|r rs [Hperm _] _ IH]; intros Hc; [constructor|].
  cbn [forward_loop_indices]. apply Forall_app. split; [by apply IH|].
  destruct (forward_loop_letter rs c Hc) as (d & -> & Hd).
  destruct (forward_path r Hperm d Hd)
    as (w & d' & Ha & Hi & Hw & Hwin & Hwi & Hj & Ho & _).
  unfold forward_indices. rewrite Hw. repeat constructor; lia.
Qed.

Lemma backward_loop_indices_ok rs c :
  Forall wf_rotor rs → c ∈ alphabet →
  Forall (λ i, 0 ≤ i ≤ 25) (backward_loop_indices rs (Some c)).
Proof.
  intros Hwf. revert c.
  induction Hwf as [|r rs [Hperm _] _ IH]; intros c Hc; [constructor|].
  destruct (backward_path r Hperm c Hc)
    as (x & d & Ha & Hi & Hx & Hxin & Hxi & Hk & Hkx & Ho & Hd & Hdin & _).
  cbn [backward_loop_indices]. apply Forall_app. split.
  - unfold backward_indices. repeat constructor; lia.
  - rewrite Hd. by apply IH.
Qed.

(** ** The substitution of one key press *)

Section substitution.
Variable e : Enigma.
Hypothesis Hwf : wf_machine e.

(** The five stages, each landing on a letter. *)
Lemma substitute_stages c :
  c ∈ alphabet →
  ∃ c1 c2 c3 c4 d,
    plugboardSwap (Some c) (plugboardPairs e) = Some c1 ∧ c1 ∈ alphabet
    ∧ foldr forward (Some c1) (rotors e) = Some c2 ∧ c2 ∈ alphabet
    ∧ reflect (Some c2) = Some c3 ∧ c3 ∈ alphabet ∧ c3 ≠ c2
    ∧ reflect (Some c3) = Some c2
    ∧ foldl (λ c r, backward r c) (Some c3) (rotors e) = Some c4
    ∧ c4 ∈ alphabet
    ∧ plugboardSwap (Some c4) (plugboardPairs e) = Some d ∧ d ∈ alphabet
    ∧ substitute e c = Some d.
Proof.
  intros Hc. destruct Hwf as [_ Hrs Hl].
  destruct (plugboardSwap_defined c (plugboardPairs e)) as (c1 & H1).
  pose proof (plugboardSwap_letter _ _ _ Hl Hc H1) as Hc1.
  destruct (forward_loop_letter (rotors e) c1 Hc1) as (c2 & H2 & Hc2).
  destruct (reflect_letter c2 Hc2) as (c3 & H3 & Hc3 & Hne & Hback).
  destruct (backward_loop_letter (rotors e) c3 Hc3) as (c4 & H4 & Hc4).
  destruct (plugboardSwap_defined c4 (plugboardPairs e)) as (d & Hd).
  pose proof (plugboardSwap_letter _ _ _ Hl Hc4 Hd) as Hdin.
  exists c1, c2, c3, c4, d. unfold substitute.
  rewrite H1, H2, H3, H4, Hd. done.
Qed.

Lemma substitute_reciprocal c :
  one_pair_per_letter (plugboardPairs e) = true → c ∈ alphabet →
  ∃ d, substitute e c = Some d ∧ d ∈ alphabet ∧ d ≠ c
       ∧ substitute e d = Some c.
Proof.
  intros Hp Hc.
  destruct (substitute_stages c Hc)
    as (c1 & c2 & c3 & c4 & d & H1 & Hc1 & H2 & Hc2 & H3 & Hc3 & Hne & Hback
        & H4 & Hc4 & Hd & Hdin & Hsub).
  destruct Hwf as [_ Hrs Hl].
  pose proof (forward_backward_loop _ _ Hrs Hc3) as Hfb. rewrite H4 in Hfb.
  pose proof (backward_forward_loop _ _ Hrs Hc1) as Hbf. rewrite H2 in Hbf.
  exists d. split; [done|]. split; [done|]. split.
  - intros ->. apply (plugboardSwap_symmetric _ _ _ Hp) in Hd.
    rewrite H1 in Hd. simplify_eq.
  - unfold substitute.
    rewrite (plugboardSwap_symmetric _ _ _ Hp Hd), Hfb, Hback, Hbf.
    by apply plugboardSwap_symmetric.
Qed.

Lemma substitute_indices_ok c :
  c ∈ alphabet → Forall (λ i, 0 ≤ i ≤ 25) (substitute_indices e c).
Proof.
  intros Hc.
  destruct (substitute_stages c Hc)
    as (c1 & c2 & c3 & c4 & d & H1 & Hc1 & H2 & Hc2 & H3 & Hc3 & _).
  destruct Hwf as [_ Hrs _].
  unfold substitute_indices. rewrite H1, H2, H3.
  rewrite !Forall_app. split; [by apply forward_loop_indices_ok|].
  split; [|by apply backward_loop_indices_ok].
  constructor; [|constructor]. by apply alphabet_index.
Qed.
End substitution.

(** ** Stepping *)

Local Arguments atNotch : simpl never.
Local Arguments step : simpl never.

(** On a machine with (at least) three rotors [stepRotors] does not raise and
    computes the controller of the specification on the first three. *)
Lemma stepRotors_three l m r rest pairs :
  stepRotors (mkEnigma (l :: m :: r :: rest) pairs)
  = Ok (tt, let '(l', m', r') := stepping_controller l m r in
            mkEnigma (l' :: m' :: r' :: rest) pairs).
Proof.
  unfold stepRotors, stepping_controller, bind, rotor_atNotch, rotor_step, when, ret.
  simpl. destruct (atNotch r); simpl.
  - destruct (atNotch m || atNotch (step m)); reflexivity.
  - rewrite orb_diag. destruct (atNotch m); reflexivity.
Qed.

(** With fewer than three rotors [stepRotors] raises. *)
Lemma stepRotors_short e :
  (length (rotors e) < 3)%nat → stepRotors e = TypeError.
Proof.
  destruct e as [[|l [|m [|r rest]]] pairs]; simpl; intros Hlen;
    try lia; reflexivity.
Qed.

Lemma wf_rotor_step r : wf_rotor r → wf_rotor (step r).
Proof.
  intros (Hperm & Hpos & Hring). split; [done|]. split; [|done].
  apply jsmod_26_range.
Qed.

Lemma stepRotors_wf e :
  wf_machine e →
  ∃ e', stepRotors e = Ok (tt, e') ∧ wf_machine e'
        ∧ plugboardPairs e' = plugboardPairs e.
Proof.
  intros [H3 Hrs Hl]. destruct e as [[|l [|m [|r [|]]]] pairs]; try done.
  rewrite stepRotors_three. eexists. split; [reflexivity|].
  apply Forall_cons in Hrs as [Hwl Hrs]. apply Forall_cons in Hrs as [Hwm Hrs].
  apply Forall_cons in Hrs as [Hwr _].
  unfold stepping_controller.
  destruct (atNotch r), (atNotch m || _);
    (split; [split; [done| |done]|done]); simpl;
    repeat (apply Forall_cons; split); auto using wf_rotor_step.
Qed.

(** ** encryptChar and process *)

Lemma encryptChar_other c e : c ∉ alphabet → encryptChar c e = Ok (Some c, e).
Proof.
  intros Hc%includes_false. unfold encryptChar. by rewrite Hc.
Qed.

Lemma encryptChar_key c e :
  c ∈ alphabet →
  encryptChar c e
  = match stepRotors e with
    | Ok (_, e') => Ok (substitute e' c, e')
    | TypeError => TypeError
    end.
Proof.
  intros Hc%includes_true. unfold encryptChar. rewrite Hc. simpl.
  unfold bind. destruct (stepRotors e) as [[[] e']|]; reflexivity.
Qed.

(** One key press on a correctly configured machine: the rotors step, the
    result is a letter, and no index of the substitution leaves its table. *)
Lemma encryptChar_letter e c :
  wf_machine e → c ∈ alphabet →
  ∃ e' d,
    stepRotors e = Ok (tt, e') ∧ wf_machine e'
    ∧ plugboardPairs e' = plugboardPairs e
    ∧ substitute e' c = Some d
    ∧ encryptChar c e = Ok (Some d, e') ∧ d ∈ alphabet
    ∧ Forall (λ i, 0 ≤ i ≤ 25) (substitute_indices e' c).
Proof.
  intros Hwf Hc. destruct (stepRotors_wf e Hwf) as (e' & Hstep & Hwf' & Hpp).
  destruct (substitute_stages e' Hwf' c Hc)
    as (_ & _ & _ & _ & d & _ & _ & _ & _ & _ & _ & _ & _ & _ & _ & _ & Hdin & Hd).
  exists e', d. rewrite encryptChar_key, Hstep, Hd by done.
  split_and!; try done. by apply substitute_indices_ok.
Qed.

(** With an unambiguous plugboard the key press is its own inverse and has no
    fixed point. *)
Lemma encryptChar_reciprocal e c :
  wf_machine e → one_pair_per_letter (plugboardPairs e) = true → c ∈ alphabet →
  ∃ e' d,
    wf_machine e' ∧ plugboardPairs e' = plugboardPairs e
    ∧ encryptChar c e = Ok (Some d, e') ∧ d ∈ alphabet ∧ d ≠ c
    ∧ encryptChar d e = Ok (Some c, e').
Proof.
  intros Hwf Hp Hc. destruct (stepRotors_wf e Hwf) as (e' & Hstep & Hwf' & Hpp).
  rewrite <- Hpp in Hp.
  destruct (substitute_reciprocal e' Hwf' c Hp Hc)
    as (d & Hd & Hdin & Hne & Hback).
  exists e', d. rewrite !encryptChar_key, Hstep by done.
  rewrite Hd, Hback. done.
Qed.

Lemma process_cons c m e :
  process (c :: m) e
  = match encryptChar c e with
    | Ok (v, e1) =>
        match process m e1 with
        | Ok (out, e2) => Ok (join [v] ++ out, e2)
        | TypeError => TypeError
        end
    | TypeError => TypeError
    end.
Proof.
  unfold process, bind, ret. simpl. unfold bind.
  destruct (encryptChar c e) as [[v e1]|]; [|done].
  destruct (mapM encryptChar m e1) as [[vs e2]|]; [|done].
  unfold ret, join. simpl. by rewrite app_nil_r.
Qed.

(** ** Construction *)

Lemma catalog_wirings : Forall (λ entry, spec_wiring entry ≡ₚ alphabet) ROTORS.
Proof. by_evaluation. Qed.

Lemma catalog_known id :
  known_rotor id = true →
  ∃ entry, at_index ROTORS id = Some entry ∧ spec_wiring entry ≡ₚ alphabet.
Proof.
  unfold known_rotor. rewrite andb_true_iff, Z.leb_le, Z.ltb_lt. intros Hid.
  destruct (at_index_in_range ROTORS id) as (entry & He & Hin); [simpl; lia|].
  exists entry. split; [done|].
  by apply (proj1 (Forall_forall _ _) catalog_wirings).
Qed.

Lemma catalog_unknown id : known_rotor id = false → at_index ROTORS id = None.
Proof.
  unfold known_rotor. rewrite andb_false_iff, Z.leb_gt, Z.ltb_ge. intros Hid.
  unfold at_index. case_decide; [|done].
  apply lookup_ge_None. simpl. lia.
Qed.

(** The rotors [make_rotors] builds, one per identifier: catalog wiring and
    notch, the ring setting and the position given at the same index, or 0. *)
Lemma make_rotors_known ids i pos rings :
  forallb known_rotor ids = true →
  ∃ rs, make_rotors ids i pos rings = Ok rs
        ∧ length rs = length ids
        ∧ ∀ (k : nat) r, rs !! k = Some r →
            ∃ id entry, ids !! k = Some id ∧ at_index ROTORS id = Some entry
              ∧ r = mkRotor (spec_wiring entry) (spec_notch entry)
                      (default 0 (rings !! (i + k)%nat))
                      (default 0 (pos !! (i + k)%nat)).
Proof.
  revert i. induction ids as [|id ids IH]; intros i Hk.
  { by exists []. }
  simpl in Hk. apply andb_true_iff in Hk as [Hid Hids].
  destruct (catalog_known id Hid) as (entry & He & _).
  destruct (IH (S i) Hids) as (rs & Hrs & Hlen & Hall).
  cbn [make_rotors]. rewrite He, Hrs. eexists. split; [done|].
  split; [simpl; by rewrite Hlen|].
  intros [|k] r Hr; simpl in Hr.
  - exists id, entry. rewrite Nat.add_0_r. by simplify_eq.
  - destruct (Hall k r Hr) as (id' & entry' & ? & ? & ->).
    exists id', entry'. by replace (i + S k)%nat with (S i + k)%nat by lia.
Qed.

Lemma make_rotors_unknown ids i pos rings :
  forallb known_rotor ids = false → make_rotors ids i pos rings = TypeError.
Proof.
  revert i. induction ids as [|id ids IH]; intros i Hk; [done|].
  simpl in Hk. cbn [make_rotors].
  destruct (known_rotor id) eqn:Hid.
  - destruct (catalog_known id Hid) as (entry & -> & _).
    by rewrite (IH (S i) Hk).
  - by rewrite (catalog_unknown id Hid).
Qed.

Lemma in_0_25_default (xs : list Z) (k : nat) :
  forallb in_0_25 xs = true → 0 ≤ default 0 (xs !! k) ≤ 25.
Proof.
  intros Hall. destruct (xs !! k) as [x|] eqn:Hx; simpl; [|lia].
  rewrite forallb_forall in Hall.
  specialize (Hall x (proj1 (list_elem_of_In _ _) (list_elem_of_lookup_2 _ _ _ Hx))).
  unfold in_0_25 in Hall. rewrite andb_true_iff, Z.leb_le, Z.leb_le in Hall. lia.
Qed.

Lemma construct_catalog K :
  catalog_config K = true → ∃ A, construct K = Ok A ∧ wf_machine A
                                 ∧ plugboardPairs A = plugPairs K.
Proof.
  unfold catalog_config. rewrite !andb_true_iff, !bool_decide_eq_true.
  intros [[[[[[Hn Hids] _] Hpos] _] Hring] Hl].
  destruct (make_rotors_known (rotorIDs K) 0 (rotorPositions K)
              (ringSettings K) Hids) as (rs & Hrs & Hlen & Hall).
  unfold construct, Enigma_new. rewrite Hrs. eexists. split; [done|].
  split; [|done]. split; simpl; [congruence| |done].
  apply Forall_lookup. intros k r Hr.
  destruct (Hall k r Hr) as (id & entry & Hid & He & ->).
  split; simpl.
  - apply (proj1 (Forall_forall _ _) catalog_wirings).
    apply at_index_Some in He as [_ He]. by eapply list_elem_of_lookup_2.
  - split; by apply in_0_25_default.
Qed.

(** ** Runs of a machine *)

Lemma letter_code (c : char) : c ∈ alphabet ↔ (65 ≤ c ≤ 90)%N.
Proof.
  change alphabet with (N.of_nat <$> seq 65 26).
  rewrite list_elem_of_fmap. split.
  - intros (n & -> & Hn%elem_of_seq). lia.
  - intros Hc. exists (N.to_nat c). split; [lia|]. apply elem_of_seq. lia.
Qed.

Lemma letters_in_cons c m :
  letters_in (c :: m)
  = if decide (c ∈ alphabet) then S (letters_in m) else letters_in m.
Proof.
  unfold letters_in. change (c :: m) with ([c] ++ m).
  rewrite (filter_app (λ c, c ∈ alphabet) [c] m), length_app.
  rewrite (filter_cons (λ c, c ∈ alphabet) c []). by case_decide.
Qed.

Lemma stepping_controller_right l m r : (stepping_controller l m r).2 = step r.
Proof.
  unfold stepping_controller.
  by destruct (atNotch m || atNotch (if atNotch r then step m else m)).
Qed.

(** With at least one rotor the substitution yields a character. *)
Lemma substitute_defined e c : rotors e ≠ [] → ∃ v, substitute e c = Some v.
Proof.
  intros Hne. unfold substitute.
  destruct (rotors e) as [|r rs _] using rev_ind; [done|].
  rewrite foldl_app. cbn [foldl].
  destruct (backward_letter r (foldl (λ c r, backward r c)
    (reflect (foldr forward (plugboardSwap (Some c) (plugboardPairs e))
       (rs ++ [r]))) rs)) as (d & -> & _).
  apply plugboardSwap_defined.
Qed.

(** One call of [encryptChar] on a machine with at least three rotors: it
    returns a character, and the third rotor steps exactly on a letter. *)
Lemma encryptChar_total e c :
  (3 ≤ length (rotors e))%nat →
  ∃ v e',
    encryptChar c e = Ok (Some v, e')
    ∧ length (rotors e') = length (rotors e)
    ∧ rotors e' !! 2%nat
      = (if decide (c ∈ alphabet) then step else id) <$> rotors e !! 2%nat.
Proof.
  intros Hlen. case_decide as Hc.
  - destruct e as [[|l [|m [|r rest]]] pairs]; simpl in Hlen; try lia.
    rewrite encryptChar_key, stepRotors_three by done.
    pose proof (stepping_controller_right l m r) as Hr.
    destruct (stepping_controller l m r) as [[l' m'] r']. simpl in Hr. subst r'.
    destruct (substitute_defined (mkEnigma (l' :: m' :: step r :: rest) pairs) c)
      as (v & Hv); [done|].
    rewrite Hv. by eexists _, _.
  - rewrite encryptChar_other by done. exists c, e.
    by destruct (rotors e !! 2%nat).
Qed.

(** A run of [process]: it returns, keeps the length, and the third rotor
    has stepped once per letter of the text. *)
Lemma process_run m e :
  (3 ≤ length (rotors e))%nat →
  ∃ out e',
    process m e = Ok (out, e')
    ∧ length out = length m
    ∧ length (rotors e') = length (rotors e)
    ∧ rotors e' !! 2%nat = Nat.iter (letters_in m) step <$> rotors e !! 2%nat.
Proof.
  revert e. induction m as [|c m IH]; intros e Hlen.
  { exists [], e. split_and!; try done. by destruct (rotors e !! 2%nat). }
  destruct (encryptChar_total e c Hlen) as (v & e1 & Hv & Hl1 & Hr1).
  destruct (IH e1 ltac:(lia)) as (out & e2 & Hout & Hlo & Hl2 & Hr2).
  exists (v :: out), e2. rewrite process_cons, Hv, Hout.
  split_and!; [done|simpl; lia|lia|].
  rewrite Hr2, Hr1, letters_in_cons.
  destruct (rotors e !! 2%nat) as [r|]; [|done]. simpl. f_equal.
  case_decide; [|done]. by rewrite Nat.iter_succ_r.
Qed.

(** The character at index [i] of the output is what [encryptChar] returns
    for the character at index [i] of the input, in the state the machine
    has after the first [i] characters. *)
Lemma process_positions m e :
  (3 ≤ length (rotors e))%nat →
  ∃ out e',
    process m e = Ok (out, e')
    ∧ ∀ (i : nat) c, m !! i = Some c →
        ∃ ei v ei',
          process (take i m) e = Ok (take i out, ei)
          ∧ encryptChar c ei = Ok (Some v, ei')
          ∧ out !! i = Some v.
Proof.
  revert e. induction m as [|c m IH]; intros e Hlen.
  { by exists [], e. }
  destruct (encryptChar_total e c Hlen) as (v & e1 & Hv & Hl1 & _).
  destruct (IH e1 ltac:(lia)) as (out & e2 & Hout & Hpos).
  exists (v :: out), e2. rewrite process_cons, Hv, Hout. split; [done|].
  intros [|i] c' Hc'; simpl in Hc'.
  - simplify_eq. by exists e, v, e1.
  - destruct (Hpos i c' Hc') as (ei & v' & ei' & Hrun & Hkey & Hlook).
    exists ei, v', ei'. cbn [take]. by rewrite process_cons, Hv, Hrun.
Qed.

(** Text without letters goes through unchanged and leaves the machine as
    it is, whatever the machine. *)
Lemma process_no_letters m e : letters_in m = 0%nat → process m e = Ok (m, e).
Proof.
  induction m as [|c m IH]; [done|].
  rewrite letters_in_cons. case_decide as Hc; [done|]. intros Hm.
  by rewrite process_cons, encryptChar_other, IH.
Qed.

Lemma reaches_wf A e :
  wf_machine A → reaches A e →
  wf_machine e ∧ plugboardPairs e = plugboardPairs A.
Proof.
  intros HA. induction 1 as [|e1 c v e2 _ [Hwf Hpp] Hkey]; [done|].
  destruct (decide (c ∈ alphabet)) as [Hc|Hc].
  - destruct (encryptChar_letter e1 c Hwf Hc)
      as (e' & d & _ & Hwf' & Hpp' & _ & Hkey' & _).
    rewrite Hkey' in Hkey. simplify_eq. split; [done|congruence].
  - rewrite encryptChar_other in Hkey by done. by simplify_eq.
Qed.

(** Deciphering: the run on the output, from the same state, gives back the
    input and ends in the same state. *)
Lemma process_reciprocal m e :
  wf_machine e → one_pair_per_letter (plugboardPairs e) = true →
  uppercase_only m = true →
  ∃ out e',
    process m e = Ok (out, e') ∧ uppercase_only out = true
    ∧ process out e = Ok (m, e').
Proof.
  revert e. induction m as [|c m IH]; intros e Hwf Hp Hm.
  { by exists [], e. }
  simpl in Hm. apply andb_true_iff in Hm as [Hc%includes_true Hm].
  destruct (encryptChar_reciprocal e c Hwf Hp Hc)
    as (e1 & d & Hwf1 & Hpp & Hkey & Hd & _ & Hback).
  destruct (IH e1 Hwf1 ltac:(by rewrite Hpp) Hm) as (out & e2 & Hout & Hup & Hrev).
  exists (d :: out), e2. rewrite !process_cons, Hkey, Hout, Hback, Hrev.
  split_and!; try done. simpl. rewrite Hup.
  by rewrite (proj2 (includes_true _ _) Hd).
Qed.

Lemma construct_length K A :
  construct K = Ok A →
  forallb known_rotor (rotorIDs K) = true
  ∧ length (rotors A) = length (rotorIDs K)
  ∧ plugboardPairs A = plugPairs K
  ∧ ∀ (k : nat) r, rotors A !! k = Some r →
      ringSetting r = default 0 (ringSettings K !! k)
      ∧ position r = default 0 (rotorPositions K !! k).
Proof.
  unfold construct, Enigma_new. intros HA.
  destruct (forallb known_rotor (rotorIDs K)) eqn:Hk.
  - destruct (make_rotors_known (rotorIDs K) 0 (rotorPositions K)
                (ringSettings K) Hk) as (rs & Hrs & Hlen & Hall).
    rewrite Hrs in HA. simplify_eq. simpl. split_and!; try done.
    intros k r Hr. by destruct (Hall k r Hr) as (id & entry & _ & _ & ->).
  - by rewrite make_rotors_unknown in HA.
Qed.

(** Whatever the machine, a run that returns keeps the length. *)
Lemma process_ok_length m e out e' :
  process m e = Ok (out, e') → length out = length m.
Proof.
  destruct (decide (3 ≤ length (rotors e))%nat) as [Hlen|Hlen].
  { destruct (process_run m e Hlen) as (out' & e'' & -> & Hl & _).
    by intros [= <- <-]. }
  revert out. induction m as [|c m IH]; intros out; [by intros [= <- <-]|].
  rewrite process_cons. destruct (decide (c ∈ alphabet)) as [Hc|Hc].
  - rewrite encryptChar_key, stepRotors_short by (done || lia). done.
  - rewrite encryptChar_other by done.
    destruct (process m e) as [[out1 e1]|]; [|done].
    intros [= <- <-]. simpl. f_equal. by apply IH.
Qed.

Lemma forward_loop_indices_length rs c :
  length (forward_loop_indices rs c) = (4 * length rs)%nat.
Proof.
  induction rs as [|r rs IH]; [done|].
  cbn [forward_loop_indices]. rewrite length_app, IH. simpl. lia.
Qed.

Lemma backward_loop_indices_length rs c :
  length (backward_loop_indices rs c) = (4 * length rs)%nat.
Proof.
  revert c. induction rs as [|r rs IH]; intros c; [done|].
  cbn [backward_loop_indices]. rewrite length_app, IH. simpl. lia.
Qed.

(** * The claims *)

(** C1 -- Reciprocity: for every upper-case-only message [m] and every valid
    configuration [K], two machines [A] and [B] built independently from [K]
    satisfy: [A.process(m)] returns some [c], and [B.process(c)] returns
    [m]. *)
Theorem reciprocity (K : Config) (m : jsstring) :
  valid_config K = true → uppercase_only m = true →
  ∃ A B c A' B',
    construct K = Ok A ∧ construct K = Ok B
    ∧ process m A = Ok (c, A') ∧ process c B = Ok (m, B').
Proof.
  unfold valid_config. rewrite andb_true_iff. intros [HK Hp] Hm.
  destruct (construct_catalog K HK) as (A & HA & Hwf & Hpp).
  rewrite <- Hpp in Hp.
  destruct (process_reciprocal m A Hwf Hp Hm) as (c & A' & Hc & _ & Hback).
  by exists A, A, c, A', A'.
Qed.

Lemma reciprocity_witness :
  valid_config plugged_config = true
  ∧ uppercase_only (str "SECRET") = true
  ∧ ∃ A B c A' B',
      construct plugged_config = Ok A ∧ construct plugged_config = Ok B
      ∧ process (str "SECRET") A = Ok (c, A')
      ∧ process c B = Ok (str "SECRET", B').
Proof.
  split; [vm_compute; reflexivity|]. split; [vm_compute; reflexivity|].
  apply (reciprocity plugged_config (str "SECRET")); vm_compute; reflexivity.
Defined.

(** C2 -- Stepping order: on every triple of rotors, one call of
    [stepRotors] does not raise and yields exactly what the controller of
    the specification yields (middle steps if right is at its notch; left
    and middle step if the middle was at its notch before or is after; right
    steps).  With rotors I, II, III at positions 0, 3, 21 the right rotor is
    at its notch, the middle goes 3 -> 4 (its notch) -> 5, the left 0 -> 1
    and the right 21 -> 22 when one letter is encoded. *)
Theorem stepRotors_order :
  (∀ l m r pairs,
     stepRotors (mkEnigma [l; m; r] pairs)
     = Ok (tt, let '(l', m', r') := stepping_controller l m r in
               mkEnigma [l'; m'; r'] pairs))
  ∧ (∀ rings pairs c,
       c ∈ alphabet →
       ∃ l m r v A',
         Enigma_new [0; 1; 2] [0; 3; 21] rings pairs
         = Ok (mkEnigma [l; m; r] pairs)
         ∧ position <$> [l; m; r] = [0; 3; 21]
         ∧ atNotch r = true ∧ atNotch m = false
         ∧ position (step m) = 4 ∧ atNotch (step m) = true
         ∧ position (step (step m)) = 5
         ∧ encryptChar c (mkEnigma [l; m; r] pairs) = Ok (v, A')
         ∧ position <$> rotors A' = [1; 5; 22]).
Proof.
  split; [intros; apply stepRotors_three|].
  intros rings pairs c Hc.
  eexists _, _, _, _, _. split; [reflexivity|].
  rewrite encryptChar_key, stepRotors_three by done.
  split_and!; reflexivity.
Qed.

Lemma stepRotors_order_witness :
  (65%N : char) ∈ alphabet
  ∧ ∃ l m r v A',
      Enigma_new [0; 1; 2] [0; 3; 21] [0; 0; 0] []
      = Ok (mkEnigma [l; m; r] [])
      ∧ position <$> [l; m; r] = [0; 3; 21]
      ∧ atNotch r = true ∧ atNotch m = false
      ∧ position (step m) = 4 ∧ atNotch (step m) = true
      ∧ position (step (step m)) = 5
      ∧ encryptChar 65%N (mkEnigma [l; m; r] []) = Ok (v, A')
      ∧ position <$> rotors A' = [1; 5; 22].
Proof.
  assert ((65%N : char) ∈ alphabet) as H65.
  { by_evaluation. }
  split; [exact H65|].
  exact (proj2 stepRotors_order [0; 0; 0] [] 65%N H65).
Defined.

(** C3 -- Non-alphabetic no-op: in every machine state, [encryptChar] on a
    character outside A-Z (code unit outside 65..90: lower-case letters,
    digits, punctuation, white space, other scripts) returns that character
    and the machine unchanged; a text without letters, such as "123!@#", is
    returned as it is and leaves the machine unchanged. *)
Theorem non_alphabetic_noop (e : Enigma) :
  (∀ c, c ∉ alphabet → encryptChar c e = Ok (Some c, e))
  ∧ (∀ c : char, ¬ (65 ≤ c ≤ 90)%N → encryptChar c e = Ok (Some c, e))
  ∧ (∀ m, letters_in m = 0%nat → process m e = Ok (m, e))
  ∧ process (str "123!@#") e = Ok (str "123!@#", e).
Proof.
  split_and!.
  - intros c Hc. by apply encryptChar_other.
  - intros c Hc. apply encryptChar_other. by rewrite letter_code.
  - intros m Hm. by apply process_no_letters.
  - by apply process_no_letters.
Qed.

Lemma non_alphabetic_noop_witness :
  ¬ (65 ≤ 97 ≤ 90)%N
  ∧ letters_in (str "hello world 42") = 0%nat
  ∧ encryptChar 97%N (mkEnigma [] []) = Ok (Some 97%N, mkEnigma [] [])
  ∧ process (str "hello world 42") (mkEnigma [] [])
    = Ok (str "hello world 42", mkEnigma [] []).
Proof.
  assert (¬ (65 ≤ 97 ≤ 90)%N) as H by lia.
  split; [exact H|]. split; [vm_compute; reflexivity|]. split.
  - exact (proj1 (proj2 (non_alphabetic_noop (mkEnigma [] []))) 97%N H).
  - apply (proj1 (proj2 (proj2 (non_alphabetic_noop (mkEnigma [] []))))).
    vm_compute; reflexivity.
Defined.

(** C4, as stated, fails: a position of 26 and a ring setting of -1 are
    accepted and stored, and so is a list of two rotors; construction raises
    nothing for either malformed configuration. *)
Lemma construction_unchecked :
  (malformed out_of_range_config = true
   ∧ ∃ A, construct out_of_range_config = Ok A
          ∧ position <$> rotors A = [0; 0; 26]
          ∧ ringSetting <$> rotors A = [0; -1; 0])
  ∧ (malformed two_rotor_config = true
     ∧ ∃ A, construct two_rotor_config = Ok A ∧ length (rotors A) = 2%nat).
Proof.
  split; (split; [reflexivity|]); eexists; split_and!; reflexivity.
Qed.

(** C4, amended -- construction validates nothing but the rotor identifiers:
    it raises (a TypeError, and no machine exists) exactly when some
    identifier is not an index of the catalog; otherwise it returns a machine
    with one rotor per identifier, each holding the ring setting and the
    position given at its index as they are (0 when absent), and the pairs as
    given. *)
Theorem construction_failure (K : Config) :
  match construct K with
  | TypeError => forallb known_rotor (rotorIDs K) = false
  | Ok A =>
      forallb known_rotor (rotorIDs K) = true
      ∧ length (rotors A) = length (rotorIDs K)
      ∧ plugboardPairs A = plugPairs K
      ∧ ∀ (k : nat) r, rotors A !! k = Some r →
          ringSetting r = default 0 (ringSettings K !! k)
          ∧ position r = default 0 (rotorPositions K !! k)
  end.
Proof.
  destruct (construct K) as [A|] eqn:HA; [by apply construct_length|].
  destruct (forallb known_rotor (rotorIDs K)) eqn:Hk; [|done].
  destruct (make_rotors_known (rotorIDs K) 0 (rotorPositions K)
              (ringSettings K) Hk) as (rs & Hrs & _).
  unfold construct, Enigma_new in HA. by rewrite Hrs in HA.
Qed.

(** C5 -- Rotor inverse: for a rotor whose wiring is a permutation of the
    alphabet, position and ring setting in [0,25], and a letter [c],
    [backward(forward(c)) = c] and [forward(backward(c)) = c]. *)
Theorem forward_backward_inverse (r : Rotor) (c : char) :
  wiring r ≡ₚ alphabet →
  0 ≤ position r ≤ 25 → 0 ≤ ringSetting r ≤ 25 →
  c ∈ alphabet →
  backward r (forward r (Some c)) = Some c
  ∧ forward r (backward r (Some c)) = Some c.
Proof.
  intros Hperm _ _ Hc. split.
  - by apply backward_forward.
  - by apply forward_backward.
Qed.

Lemma forward_backward_inverse_witness :
  wiring rotor_I_5_3 ≡ₚ alphabet
  ∧ 0 ≤ position rotor_I_5_3 ≤ 25 ∧ 0 ≤ ringSetting rotor_I_5_3 ≤ 25
  ∧ (72%N : char) ∈ alphabet
  ∧ backward rotor_I_5_3 (forward rotor_I_5_3 (Some 72%N)) = Some 72%N
  ∧ forward rotor_I_5_3 (backward rotor_I_5_3 (Some 72%N)) = Some 72%N.
Proof.
  assert (wiring rotor_I_5_3 ≡ₚ alphabet) as Hperm.
  { by_evaluation. }
  assert (0 ≤ position rotor_I_5_3 ≤ 25) as Hpos by (simpl; lia).
  assert (0 ≤ ringSetting rotor_I_5_3 ≤ 25) as Hring by (simpl; lia).
  assert ((72%N : char) ∈ alphabet) as Hc.
  { by_evaluation. }
  split; [exact Hperm|]. split; [exact Hpos|]. split; [exact Hring|].
  split; [exact Hc|].
  exact (forward_backward_inverse rotor_I_5_3 72%N Hperm Hpos Hring Hc).
Defined.

(** C6 -- Plugboard involution: when each letter appears in at most one
    pair, swapping twice returns the character, and the swap is symmetric:
    if it maps [a] to [b] it maps [b] to [a]. *)
Theorem plugboard_involution (pairs : list (char * char)) :
  one_pair_per_letter pairs = true →
  (∀ c, plugboardSwap (plugboardSwap (Some c) pairs) pairs = Some c)
  ∧ (∀ a b, plugboardSwap (Some a) pairs = Some b →
            plugboardSwap (Some b) pairs = Some a).
Proof.
  intros Hp. split.
  - intros c. destruct (plugboardSwap_defined c pairs) as (d & Hd).
    rewrite Hd. by apply plugboardSwap_symmetric.
  - intros a b. by apply plugboardSwap_symmetric.
Qed.

Lemma plugboard_involution_witness :
  one_pair_per_letter [(65, 66); (67, 68)]%N = true
  ∧ plugboardSwap (plugboardSwap (Some 66%N) [(65, 66); (67, 68)]%N)
      [(65, 66); (67, 68)]%N = Some 66%N
  ∧ (plugboardSwap (Some 67%N) [(65, 66); (67, 68)]%N = Some 68%N →
     plugboardSwap (Some 68%N) [(65, 66); (67, 68)]%N = Some 67%N).
Proof.
  assert (one_pair_per_letter [(65, 66); (67, 68)]%N = true) as Hp
    by (vm_compute; reflexivity).
  split; [exact Hp|]. split.
  - exact (proj1 (plugboard_involution _ Hp) 66%N).
  - exact (proj2 (plugboard_involution _ Hp) 67%N 68%N).
Defined.

(** C7 -- Length and position preservation: for every configuration with
    the three rotors of a machine (or more) that constructs and every text
    [m], [process(m)] returns a string of the same length, whose character at
    each index is the result of [encryptChar] on the character of [m] at that
    index (in the state left by the characters before it); and on any
    machine whatever, a run that returns keeps the length. *)
Theorem process_length (K : Config) (A : Enigma) (m : jsstring) :
  (3 ≤ length (rotorIDs K))%nat → construct K = Ok A →
  (∃ out A',
     process m A = Ok (out, A')
     ∧ length out = length m
     ∧ ∀ (i : nat) c, m !! i = Some c →
         ∃ Ai v Ai',
           process (take i m) A = Ok (take i out, Ai)
           ∧ encryptChar c Ai = Ok (Some v, Ai')
           ∧ out !! i = Some v)
  ∧ (∀ e out e', process m e = Ok (out, e') → length out = length m).
Proof.
  intros H3 HA. split; [|intros e out e'; apply process_ok_length].
  destruct (construct_length K A HA) as (_ & Hlen & _).
  assert (3 ≤ length (rotors A))%nat as Hge by lia.
  destruct (process_positions m A Hge) as (out & A' & Hout & Hpos).
  exists out, A'. split; [done|]. split; [|done].
  by eapply process_ok_length.
Qed.

Lemma process_length_witness :
  (3 ≤ length (rotorIDs default_config))%nat
  ∧ ∃ A, construct default_config = Ok A
    ∧ ∃ out A',
        process (str "HELLO123!@#world") A = Ok (out, A')
        ∧ length out = length (str "HELLO123!@#world").
Proof.
  assert (3 ≤ length (rotorIDs default_config))%nat as H3 by (simpl; lia).
  split; [exact H3|]. eexists. split; [reflexivity|].
  destruct (proj1 (process_length default_config _ (str "HELLO123!@#world")
                     H3 eq_refl)) as (out & A' & Hout & Hlen & _).
  exists out, A'. split; [exact Hout|exact Hlen].
Defined.

(** C8 -- Single-step advancement: a machine with rotors I, II, III at
    positions 0, 0, 0 (any ring settings, any plugboard) has its right rotor
    at position 1 after a text with exactly one letter, and at position 6
    after a further text with exactly five letters; the other characters of
    these texts, wherever they stand, cause no stepping. *)
Theorem right_rotor_advances (rings : list Z) (pairs : list (char * char))
    (A : Enigma) (m1 m2 : jsstring) :
  Enigma_new [0; 1; 2] [0; 0; 0] rings pairs = Ok A →
  letters_in m1 = 1%nat → letters_in m2 = 5%nat →
  position <$> rotors A = [0; 0; 0]
  ∧ ∃ o1 A1 o2 A2,
      process m1 A = Ok (o1, A1)
      ∧ position <$> rotors A1 !! 2%nat = Some 1
      ∧ process m2 A1 = Ok (o2, A2)
      ∧ position <$> rotors A2 !! 2%nat = Some 6.
Proof.
  intros HA H1 H5. vm_compute in HA. injection HA as <-.
  split; [reflexivity|].
  match goal with |- context [process m1 ?A] => set (A0 := A) end.
  destruct (process_run m1 A0) as (o1 & A1 & Ho1 & _ & Hl1 & Hr1);
    [simpl; lia|].
  destruct (process_run m2 A1) as (o2 & A2 & Ho2 & _ & _ & Hr2);
    [rewrite Hl1; simpl; lia|].
  exists o1, A1, o2, A2. rewrite H1 in Hr1. rewrite H5, Hr1 in Hr2.
  rewrite Hr1, Hr2. split_and!; try done.
Qed.

Lemma right_rotor_advances_witness :
  Enigma_new [0; 1; 2] [0; 0; 0] [0; 0; 0] []
  = Ok (mkEnigma [ mkRotor (str "EKMFLGDQVZNTOWYHXUSPAIBRCJ") 81%N 0 0
                 ; mkRotor (str "AJDKSIRUXBLHWTMCQGZNPYFVOE") 69%N 0 0
                 ; mkRotor (str "BDFHJLCPRTXVZNYEIWGAKMUSQO") 86%N 0 0 ] [])
  ∧ letters_in (str "1A!") = 1%nat ∧ letters_in (str "A A-A.A a A") = 5%nat
  ∧ ∃ o1 A1 o2 A2,
      process (str "1A!") (mkEnigma
                 [ mkRotor (str "EKMFLGDQVZNTOWYHXUSPAIBRCJ") 81%N 0 0
                 ; mkRotor (str "AJDKSIRUXBLHWTMCQGZNPYFVOE") 69%N 0 0
                 ; mkRotor (str "BDFHJLCPRTXVZNYEIWGAKMUSQO") 86%N 0 0 ] [])
      = Ok (o1, A1)
      ∧ position <$> rotors A1 !! 2%nat = Some 1
      ∧ process (str "A A-A.A a A") A1 = Ok (o2, A2)
      ∧ position <$> rotors A2 !! 2%nat = Some 6.
Proof.
  split; [reflexivity|]. split; [reflexivity|]. split; [reflexivity|].
  exact (proj2 (right_rotor_advances [0; 0; 0] [] _ (str "1A!")
                  (str "A A-A.A a A") eq_refl eq_refl eq_refl)).
Defined.

(** C9 -- No self-encryption: for every valid configuration, in every state
    the constructed machine can reach, [encryptChar] on a letter returns a
    character different from that letter. *)
Theorem no_self_encryption (K : Config) :
  valid_config K = true →
  ∃ A, construct K = Ok A
       ∧ ∀ e c, reaches A e → c ∈ alphabet →
           ∃ d e', encryptChar c e = Ok (Some d, e') ∧ d ≠ c.
Proof.
  unfold valid_config. rewrite andb_true_iff. intros [HK Hp].
  destruct (construct_catalog K HK) as (A & HA & Hwf & Hpp).
  exists A. split; [done|]. intros e c Hreach Hc.
  destruct (reaches_wf A e Hwf Hreach) as [Hwfe Hppe].
  destruct (encryptChar_reciprocal e c Hwfe ltac:(congruence) Hc)
    as (e' & d & _ & _ & Hkey & _ & Hne & _).
  by exists d, e'.
Qed.

Lemma no_self_encryption_witness :
  valid_config plugged_config = true
  ∧ (65%N : char) ∈ alphabet
  ∧ ∃ A d e',
      construct plugged_config = Ok A
      ∧ encryptChar 65%N A = Ok (Some d, e') ∧ d ≠ 65%N.
Proof.
  assert (valid_config plugged_config = true) as HK by (vm_compute; reflexivity).
  assert ((65%N : char) ∈ alphabet) as H65.
  { by_evaluation. }
  split; [exact HK|]. split; [exact H65|].
  destruct (no_self_encryption plugged_config HK) as (A & HA & Hall).
  destruct (Hall A 65%N (reaches_here A) H65) as (d & e' & Hkey & Hne).
  exists A, d, e'. split; [exact HA|]. split; [exact Hkey|exact Hne].
Defined.

(** C10 -- Alphabetic closure and totality: for every machine built from the
    catalog (three rotors, positions and rings in [0,25], upper-case-letter
    pairs), in every state it can reach and for every letter, [encryptChar]
    returns, and returns a letter; the rotor positions the stepping reads
    (before and after a step) are in [0,25]; and each of the 25 indices the
    substitution computes (four per rotor and direction, one for the
    reflector) is in [0,25]. *)
Theorem alphabetic_closure (K : Config) :
  catalog_config K = true →
  ∃ A, construct K = Ok A
       ∧ ∀ e c, reaches A e → c ∈ alphabet →
           Forall (λ r, 0 ≤ position r ≤ 25 ∧ 0 ≤ position (step r) ≤ 25)
             (rotors e)
           ∧ ∃ d e',
               stepRotors e = Ok (tt, e')
               ∧ substitute e' c = Some d
               ∧ encryptChar c e = Ok (Some d, e')
               ∧ d ∈ alphabet
               ∧ length (substitute_indices e' c) = 25%nat
               ∧ Forall (λ i, 0 ≤ i ≤ 25) (substitute_indices e' c).
Proof.
  intros HK. destruct (construct_catalog K HK) as (A & HA & Hwf & _).
  exists A. split; [done|]. intros e c Hreach Hc.
  destruct (reaches_wf A e Hwf Hreach) as [Hwfe _]. split.
  { eapply Forall_impl; [apply (wf_rotors e Hwfe)|].
    intros r (_ & ? & _). split; [done|apply jsmod_26_range]. }
  destruct (encryptChar_letter e c Hwfe Hc)
    as (e' & d & Hstep & Hwf' & _ & Hsub & Hkey & Hd & Hix).
  exists d, e'. split_and!; try done.
  unfold substitute_indices.
  rewrite !length_app, forward_loop_indices_length,
    backward_loop_indices_length, (wf_three e' Hwf'). reflexivity.
Qed.

Lemma alphabetic_closure_witness :
  catalog_config plugged_config = true
  ∧ (90%N : char) ∈ alphabet
  ∧ ∃ A d e',
      construct plugged_config = Ok A
      ∧ encryptChar 90%N A = Ok (Some d, e') ∧ d ∈ alphabet
      ∧ Forall (λ i, 0 ≤ i ≤ 25) (substitute_indices e' 90%N).
Proof.
  assert (catalog_config plugged_config = true) as HK
    by (vm_compute; reflexivity).
  assert ((90%N : char) ∈ alphabet) as H90.
  { by_evaluation. }
  split; [exact HK|]. split; [exact H90|].
  destruct (alphabetic_closure plugged_config HK) as (A & HA & Hall).
  destruct (Hall A 90%N (reaches_here A) H90)
    as (_ & d & e' & _ & _ & Hkey & Hd & _ & Hix).
  exists A, d, e'. split; [exact HA|]. split; [exact Hkey|].
  split; [exact Hd|exact Hix].
Defined.

(** * Further properties of the code *)

(** ** mod *)



(** ** Rotor *)

Lemma step_position r : position (step r) = (position r + 1) mod 26.
Proof. unfold step. simpl. apply jsmod_26. Qed.

Lemma iter_step r (n : nat) :
  0 ≤ position r ≤ 25 →
  Nat.iter n step r
  = mkRotor (wiring r) (notch r) (ringSetting r)
      ((position r + Z.of_nat n) mod 26).
Proof.
  intros Hp. induction n as [|n IH].
  - simpl. rewrite Z.add_0_r, Z.mod_small by lia. by destruct r.
  - rewrite Nat.iter_succ, IH. unfold step.
    cbn [wiring notch ringSetting position].
    f_equal. rewrite jsmod_26, Zplus_mod_idemp_l. f_equal. lia.
Qed.

(** X2 -- [step] turns the rotor only: [n] calls leave wiring, notch and
    ring setting as they are and move a position of [0,25] to
    [(position + n) mod 26]; 26 calls give the rotor back. *)
Theorem step_iterated (r : Rotor) (n : nat) :
  0 ≤ position r ≤ 25 →
  Nat.iter n step r
  = mkRotor (wiring r) (notch r) (ringSetting r)
      ((position r + Z.of_nat n) mod 26)
  ∧ Nat.iter 26 step r = r.
Proof.
  intros Hp. split; [by apply iter_step|]. rewrite iter_step by done.
  replace (position r + Z.of_nat 26) with (position r + 1 * 26) by lia.
  rewrite Z_mod_plus_full, Z.mod_small by lia. by destruct r.
Qed.

Lemma step_iterated_witness :
  0 ≤ position rotor_I_5_3 ≤ 25
  ∧ Nat.iter 30 step rotor_I_5_3
    = mkRotor (wiring rotor_I_5_3) (notch rotor_I_5_3)
        (ringSetting rotor_I_5_3) ((position rotor_I_5_3 + Z.of_nat 30) mod 26)
  ∧ Nat.iter 26 step rotor_I_5_3 = rotor_I_5_3.
Proof.
  assert (0 ≤ position rotor_I_5_3 ≤ 25) as H by (simpl; lia).
  split; [exact H|]. exact (step_iterated rotor_I_5_3 30 H).
Defined.

Lemma atNotch_iff r :
  atNotch r = true
  ↔ notch r ∈ alphabet ∧ position r = indexOf alphabet (Some (notch r)).
Proof.
  unfold atNotch, strict_eq. rewrite bool_decide_eq_true. split.
  - intros Hat. pose proof Hat as [Hp Hl]%at_index_Some. split.
    + by eapply list_elem_of_lookup_2.
    + symmetry. by apply indexOf_at_index; [apply alphabet_NoDup|].
  - intros [Hn ->]. by apply alphabet_index.
Qed.

(** X3 -- [atNotch] holds exactly when the notch is a letter and the position
    is the index of that letter; so never for a position outside [0,25]. *)
Theorem atNotch_index (r : Rotor) :
  (atNotch r = true
   ↔ notch r ∈ alphabet ∧ position r = indexOf alphabet (Some (notch r)))
  ∧ (atNotch r = true → 0 ≤ position r ≤ 25).
Proof.
  split; [apply atNotch_iff|].
  intros [Hn ->]%atNotch_iff. by apply alphabet_index.
Qed.

Lemma atNotch_index_witness :
  atNotch (mkRotor (str "EKMFLGDQVZNTOWYHXUSPAIBRCJ") 81%N 0 16) = true
  ∧ 0 ≤ position (mkRotor (str "EKMFLGDQVZNTOWYHXUSPAIBRCJ") 81%N 0 16) ≤ 25.
Proof.
  assert (atNotch (mkRotor (str "EKMFLGDQVZNTOWYHXUSPAIBRCJ") 81%N 0 16) = true)
    as H by (vm_compute; reflexivity).
  split; [exact H|].
  exact (proj2 (atNotch_index
                  (mkRotor (str "EKMFLGDQVZNTOWYHXUSPAIBRCJ") 81%N 0 16)) H).
Defined.


Lemma offset_in_congruent a p rg p' rg' :
  (p - rg) mod 26 = (p' - rg') mod 26 →
  jsmod (a + p - rg) 26 = jsmod (a + p' - rg') 26.
Proof.
  intros H. rewrite !jsmod_26.
  replace (a + p - rg) with (a + (p - rg)) by lia.
  replace (a + p' - rg') with (a + (p' - rg')) by lia.
  by rewrite Zplus_mod, H, <- Zplus_mod.
Qed.

Lemma offset_out_congruent a p rg p' rg' :
  (p - rg) mod 26 = (p' - rg') mod 26 →
  jsmod (a - p + rg) 26 = jsmod (a - p' + rg') 26.
Proof.
  intros H. rewrite !jsmod_26.
  replace (a - p + rg) with (a - (p - rg)) by lia.
  replace (a - p' + rg') with (a - (p' - rg')) by lia.
  by rewrite Zminus_mod, H, <- Zminus_mod.
Qed.



(** ** Plugboard *)

Lemma plugboardSwap_undefined pairs : plugboardSwap None pairs = None.
Proof. induction pairs as [|[a b] pairs IH]; [done|]. simpl. exact IH. Qed.

Lemma mentioned_cons x a b pairs :
  mentioned x ((a, b) :: pairs) = false
  ↔ x ≠ a ∧ x ≠ b ∧ mentioned x pairs = false.
Proof.
  simpl. rewrite !orb_false_iff, !bool_decide_eq_false. tauto.
Qed.

Lemma plugboardSwap_unmentioned c pairs :
  mentioned c pairs = false → plugboardSwap (Some c) pairs = Some c.
Proof.
  induction pairs as [|[a b] pairs IH]; [done|].
  intros (Ha & Hb & Hm)%mentioned_cons.
  rewrite plugboardSwap_cons, !decide_False by done. auto.
Qed.

(** X6 -- The plugboard touches plugged letters only: a character that no
    pair mentions is returned as it is, [undefined] stays [undefined], and
    what comes out is the argument or one of the plugged letters. *)
Theorem plugboard_elsewhere (pairs : list (char * char)) :
  (∀ c, mentioned c pairs = false → plugboardSwap (Some c) pairs = Some c)
  ∧ plugboardSwap None pairs = None
  ∧ (∀ c d, plugboardSwap (Some c) pairs = Some d →
            d = c ∨ (mentioned c pairs = true ∧ mentioned d pairs = true)).
Proof.
  split; [intros c; apply plugboardSwap_unmentioned|].
  split; [apply plugboardSwap_undefined|].
  intros c d Hs. destruct (decide (d = c)) as [|Hne]; [by left|right].
  split; [|by eapply plugboardSwap_moved].
  destruct (mentioned c pairs) eqn:Hm; [done|].
  rewrite plugboardSwap_unmentioned in Hs by done. congruence.
Qed.

Lemma plugboard_elsewhere_witness :
  mentioned 90%N [(65, 66); (67, 68)]%N = false
  ∧ plugboardSwap (Some 90%N) [(65, 66); (67, 68)]%N = Some 90%N.
Proof.
  assert (mentioned 90%N [(65, 66); (67, 68)]%N = false) as H by reflexivity.
  split; [exact H|].
  exact (proj1 (plugboard_elsewhere [(65, 66); (67, 68)]%N) 90%N H).
Defined.

(** X7 -- Ambiguous plugboard, first match wins: behind pairs that do not
    mention [c], the first pair that does decides and the pairs after it are
    never looked at; so with a letter in two pairs the swap is no longer its
    own inverse. *)
Theorem plugboard_first_match (before after : list (char * char))
    (a b c : char) :
  mentioned c before = false →
  (c = a → plugboardSwap (Some c) (before ++ (a, b) :: after) = Some b)
  ∧ (c = b → c ≠ a →
     plugboardSwap (Some c) (before ++ (a, b) :: after) = Some a)
  ∧ (a ≠ b → b ≠ c → a ≠ c →
     plugboardSwap (plugboardSwap (Some c) [(a, b); (a, c)]) [(a, b); (a, c)]
     = Some b).
Proof.
  intros Hm.
  assert (plugboardSwap (Some c) (before ++ (a, b) :: after)
          = plugboardSwap (Some c) ((a, b) :: after)) as ->.
  { induction before as [|[x y] before IH]; [done|].
    apply mentioned_cons in Hm as (Hx & Hy & Hm).
    cbn [app]. rewrite plugboardSwap_cons, !decide_False by done. auto. }
  rewrite plugboardSwap_cons. split_and!.
  - intros ->. by rewrite decide_True.
  - intros -> Hne. by rewrite decide_False, decide_True.
  - intros Hab Hbc Hac. rewrite !plugboardSwap_cons.
    repeat case_decide; try congruence.
    rewrite plugboardSwap_cons. by rewrite decide_True.
Qed.

Lemma plugboard_first_match_witness :
  mentioned 65%N [(67, 68)]%N = false
  ∧ plugboardSwap (Some 65%N) ([(67, 68)] ++ (65, 66) :: [(65, 69)])%N
    = Some 66%N.
Proof.
  assert (mentioned 65%N [(67, 68)]%N = false) as H by reflexivity.
  split; [exact H|].
  exact (proj1 (plugboard_first_match [(67, 68)]%N [(65, 69)]%N
                  65%N 66%N 65%N H) eq_refl).
Defined.

(** ** Reflector *)

Lemma find_from_absent s x i : x ∉ s → find_from s x i = -1.
Proof.
  revert i. induction s as [|y s IH]; intros i Hx; simpl; [done|].
  apply not_elem_of_cons in Hx as [Hne Hx].
  rewrite decide_False by done. by apply IH.
Qed.

(** X8 -- The reflector pairs the letters: on a letter it returns another
    letter, which it sends back to the first; on any other character, and on
    [undefined], the look-up is out of the table and gives [undefined]. *)
Theorem reflector_pairs_letters (c : char) :
  (c ∈ alphabet →
   ∃ d, reflect (Some c) = Some d ∧ d ∈ alphabet ∧ d ≠ c
        ∧ reflect (Some d) = Some c)
  ∧ (c ∉ alphabet → reflect (Some c) = None)
  ∧ reflect None = None.
Proof.
  split; [apply reflect_letter|]. split; [|reflexivity].
  intros Hc. unfold reflect, indexOf. by rewrite find_from_absent.
Qed.

Lemma reflector_pairs_letters_witness :
  (65%N : char) ∈ alphabet ∧ ((97%N : char) ∉ alphabet)
  ∧ (∃ d, reflect (Some 65%N) = Some d ∧ d ∈ alphabet ∧ d ≠ 65%N
          ∧ reflect (Some d) = Some 65%N)
  ∧ reflect (Some 97%N) = None.
Proof.
  assert ((65%N : char) ∈ alphabet) as H65 by by_evaluation.
  assert ((97%N : char) ∉ alphabet) as H97 by by_evaluation.
  split; [exact H65|]. split; [exact H97|]. split.
  - exact (proj1 (reflector_pairs_letters 65%N) H65).
  - exact (proj1 (proj2 (reflector_pairs_letters 97%N)) H97).
Defined.

(** ** Stepping *)

Lemma stepRotors_total e :
  (3 ≤ length (rotors e))%nat → ∃ e', stepRotors e = Ok (tt, e').
Proof.
  destruct e as [[|l [|m [|r rest]]] pairs]; simpl; intros Hlen; try lia.
  rewrite stepRotors_three. eauto.
Qed.

Lemma stepRotors_needs_three e u e' :
  stepRotors e = Ok (u, e') → (3 ≤ length (rotors e))%nat.
Proof.
  intros Hs. destruct (decide (3 ≤ length (rotors e))%nat) as [|Hlt]; [done|].
  rewrite stepRotors_short in Hs by lia. done.
Qed.

Lemma same_setup_refl e : same_setup e e.
Proof.
  split; [done|]. split; [done|]. intros k r r' Hr Hr'. by simplify_eq.
Qed.

Lemma same_setup_trans e1 e2 e3 :
  same_setup e1 e2 → same_setup e2 e3 → same_setup e1 e3.
Proof.
  intros (Hp12 & Hl12 & H12) (Hp23 & Hl23 & H23).
  split; [congruence|]. split; [congruence|].
  intros k r1 r3 Hr1 Hr3.
  destruct (lookup_lt_is_Some_2 (rotors e2) k) as [r2 Hr2].
  { rewrite Hl12. by eapply lookup_lt_Some. }
  destruct (H12 k r1 r2 Hr1 Hr2) as (? & ? & ? & Hk12).
  destruct (H23 k r2 r3 Hr2 Hr3) as (? & ? & ? & Hk23).
  split_and!; try congruence. intros Hk. rewrite Hk23, Hk12 by done. done.
Qed.

Lemma stepping_controller_turned l m r :
  turned l (stepping_controller l m r).1.1
  ∧ turned m (stepping_controller l m r).1.2
  ∧ turned r (stepping_controller l m r).2.
Proof.
  unfold stepping_controller, turned.
  destruct (atNotch r), (atNotch m || _); unfold step; simpl; done.
Qed.

Lemma stepRotors_setup e u e' : stepRotors e = Ok (u, e') → same_setup e e'.
Proof.
  intros Hs. pose proof (stepRotors_needs_three _ _ _ Hs) as Hlen.
  destruct e as [[|l [|m [|r rest]]] pairs]; simpl in Hlen; try lia.
  rewrite stepRotors_three in Hs.
  destruct (stepping_controller_turned l m r) as (Hl & Hm & Hr).
  destruct (stepping_controller l m r) as [[l' m'] r']. simpl in *.
  injection Hs as _ <-. split; [done|]. split; [done|].
  intros [|[|[|k]]] x x' Hx Hx'; simpl in *; simplify_eq.
  - destruct Hl as (? & ? & ?). split_and!; try done. lia.
  - destruct Hm as (? & ? & ?). split_and!; try done. lia.
  - destruct Hr as (? & ? & ?). split_and!; try done. lia.
  - done.
Qed.

Lemma encryptChar_setup c e v e' : encryptChar c e = Ok (v, e') → same_setup e e'.
Proof.
  destruct (decide (c ∈ alphabet)) as [Hc|Hc].
  - rewrite encryptChar_key by done.
    destruct (stepRotors e) as [[u e1]|] eqn:Hs; [|done].
    intros [= <- <-]. by eapply stepRotors_setup.
  - rewrite encryptChar_other by done. intros [= <- <-]. apply same_setup_refl.
Qed.

Lemma process_setup m e out e' : process m e = Ok (out, e') → same_setup e e'.
Proof.
  revert e out. induction m as [|c m IH]; intros e out.
  { intros [= <- <-]. apply same_setup_refl. }
  rewrite process_cons.
  destruct (encryptChar c e) as [[v e1]|] eqn:Hc; [|done].
  destruct (process m e1) as [[out1 e2]|] eqn:Hm; [|done].
  intros [= <- <-]. eapply same_setup_trans.
  - by eapply encryptChar_setup.
  - by eapply IH.
Qed.

(** X9 -- A machine with fewer than three rotors raises on the first letter
    and on nothing else: [encryptChar] of a letter is a [TypeError], and
    [process] returns the text unchanged when it has no letter and raises
    otherwise. *)
Theorem too_few_rotors (e : Enigma) (m : jsstring) :
  (length (rotors e) < 3)%nat →
  (∀ c, c ∈ alphabet → encryptChar c e = TypeError)
  ∧ process m e
    = if decide (letters_in m = 0%nat) then Ok (m, e) else TypeError.
Proof.
  intros Hlen.
  assert (∀ c, c ∈ alphabet → encryptChar c e = TypeError) as Hkey.
  { intros c Hc. by rewrite encryptChar_key, stepRotors_short. }
  split; [exact Hkey|].
  induction m as [|c m IH]; [done|].
  rewrite process_cons, letters_in_cons.
  destruct (decide (c ∈ alphabet)) as [Hc|Hc].
  - by rewrite Hkey.
  - rewrite encryptChar_other, IH by done. by case_decide.
Qed.

Lemma too_few_rotors_witness :
  (length (rotors (mkEnigma [rotor_I_5_3; rotor_I_5_3] [])) < 3)%nat
  ∧ encryptChar 65%N (mkEnigma [rotor_I_5_3; rotor_I_5_3] []) = TypeError
  ∧ process (str "12 A") (mkEnigma [rotor_I_5_3; rotor_I_5_3] [])
    = if decide (letters_in (str "12 A") = 0%nat)
      then Ok (str "12 A", mkEnigma [rotor_I_5_3; rotor_I_5_3] [])
      else TypeError.
Proof.
  assert (length (rotors (mkEnigma [rotor_I_5_3; rotor_I_5_3] [])) < 3)%nat
    as H by (simpl; lia).
  assert ((65%N : char) ∈ alphabet) as H65 by by_evaluation.
  split; [exact H|]. split.
  - exact (proj1 (too_few_rotors _ [] H) 65%N H65).
  - exact (proj2 (too_few_rotors _ (str "12 A") H)).
Defined.

(** X10 -- A run changes positions only, and only of the first three
    rotors: after [process] the machine has the same plugboard, the same
    number of rotors, each with the wiring, notch and ring setting it had,
    and the rotors after the third are untouched. *)
Theorem process_keeps_setup (m : jsstring) (e e' : Enigma) (out : jsstring) :
  process m e = Ok (out, e') →
  plugboardPairs e' = plugboardPairs e
  ∧ length (rotors e') = length (rotors e)
  ∧ ∀ (k : nat) r r', rotors e !! k = Some r → rotors e' !! k = Some r' →
      wiring r' = wiring r ∧ notch r' = notch r
      ∧ ringSetting r' = ringSetting r
      ∧ ((3 ≤ k)%nat → r' = r).
Proof. apply process_setup. Qed.

Lemma process_keeps_setup_witness :
  match process (str "A-B") four_rotor_machine with
  | Ok (out, e') =>
      plugboardPairs e' = plugboardPairs four_rotor_machine
      ∧ length (rotors e') = length (rotors four_rotor_machine)
      ∧ ∀ (k : nat) r r',
          rotors four_rotor_machine !! k = Some r → rotors e' !! k = Some r' →
          wiring r' = wiring r ∧ notch r' = notch r
          ∧ ringSetting r' = ringSetting r
          ∧ ((3 ≤ k)%nat → r' = r)
  | TypeError => False
  end.
Proof.
  destruct (process (str "A-B") four_rotor_machine) as [[out e']|] eqn:Hrun.
  - exact (process_keeps_setup _ _ _ _ Hrun).
  - vm_compute in Hrun. discriminate Hrun.
Defined.

Lemma atNotch_not_next x :
  atNotch x = true →
  atNotch (step x) = false ∧ atNotch (step (step x)) = false.
Proof.
  intros [Hn Hp]%atNotch_iff.
  destruct (alphabet_index _ Hn) as [Hrange _].
  split.
  - destruct (atNotch (step x)) eqn:Hs; [exfalso|done].
    apply atNotch_iff in Hs as [_ Hs]. rewrite step_position in Hs.
    change (notch (step x)) with (notch x) in Hs.
    rewrite <- Hp in Hs, Hrange. Z.div_mod_to_equations. lia.
  - destruct (atNotch (step (step x))) eqn:Hs; [exfalso|done].
    apply atNotch_iff in Hs as [_ Hs]. rewrite !step_position in Hs.
    change (notch (step (step x))) with (notch x) in Hs.
    rewrite <- Hp in Hs, Hrange. Z.div_mod_to_equations. lia.
Qed.

Lemma stepping_controller_middle l m r :
  atNotch (stepping_controller l m r).1.2 = false.
Proof.
  unfold stepping_controller.
  destruct (atNotch r) eqn:Hr, (atNotch m) eqn:Hm; simpl.
  - exact (proj2 (atNotch_not_next m Hm)).
  - destruct (atNotch (step m)) eqn:Ha; simpl; [|done].
    exact (proj1 (atNotch_not_next (step m) Ha)).
  - exact (proj1 (atNotch_not_next m Hm)).
  - exact Hm.
Qed.

(** X11 -- After a key press the middle rotor is never at its notch: the
    controller carries it past the notch in the same key press.  So the
    notch test made before stepping can only succeed on the first key press
    of a machine built with its middle rotor at the notch. *)
Theorem middle_leaves_notch (c : char) (e e' : Enigma) (v : jsval) :
  c ∈ alphabet → encryptChar c e = Ok (v, e') →
  ∃ m', rotors e' !! 1%nat = Some m' ∧ atNotch m' = false.
Proof.
  intros Hc. rewrite encryptChar_key by done.
  destruct (stepRotors e) as [[u e1]|] eqn:Hs; [|done].
  intros [= <- <-]. pose proof (stepRotors_needs_three _ _ _ Hs) as Hlen.
  destruct e as [[|l [|m [|r rest]]] pairs]; simpl in Hlen; try lia.
  rewrite stepRotors_three in Hs.
  pose proof (stepping_controller_middle l m r) as Hmid.
  destruct (stepping_controller l m r) as [[l' m'] r'].
  injection Hs as _ <-. by exists m'.
Qed.

Lemma middle_leaves_notch_witness :
  (65%N : char) ∈ alphabet
  ∧ match encryptChar 65%N four_rotor_machine with
    | Ok (v, e') => ∃ m', rotors e' !! 1%nat = Some m' ∧ atNotch m' = false
    | TypeError => False
    end.
Proof.
  assert ((65%N : char) ∈ alphabet) as H65 by by_evaluation.
  split; [exact H65|].
  destruct (encryptChar 65%N four_rotor_machine) as [[v e']|] eqn:Hkey.
  - exact (middle_leaves_notch _ _ _ _ H65 Hkey).
  - vm_compute in Hkey. discriminate Hkey.
Defined.

(** X12 -- [process] composes: a run on [m1 ++ m2] is the run on [m1]
    followed, on the machine it leaves, by the run on [m2], the outputs put
    end to end; it raises when either run raises. *)
Theorem process_concat (m1 m2 : jsstring) (e : Enigma) :
  process (m1 ++ m2) e
  = match process m1 e with
    | Ok (out1, e1) =>
        match process m2 e1 with
        | Ok (out2, e2) => Ok (out1 ++ out2, e2)
        | TypeError => TypeError
        end
    | TypeError => TypeError
    end.
Proof.
  revert e. induction m1 as [|c m1 IH]; intros e.
  { change (process [] e) with (Ok ([] : jsstring, e)). simpl.
    by destruct (process m2 e) as [[out2 e2]|]. }
  rewrite <- app_comm_cons, !process_cons.
  destruct (encryptChar c e) as [[v e1]|]; [|done].
  rewrite IH. destruct (process m1 e1) as [[out1 e2]|]; [|done].
  destruct (process m2 e2) as [[out2 e3]|]; [|done].
  by rewrite app_assoc.
Qed.

(** X13 -- Stepping does not look at the text: the machine left by a run is
    the machine after as many bare calls of [stepRotors] as the text has
    letters, whatever the letters, the other characters and the plugboard. *)
Theorem state_counts_letters (m : jsstring) (e e' : Enigma) (out : jsstring) :
  process m e = Ok (out, e') → e' = Nat.iter (letters_in m) press e.
Proof.
  revert e out. induction m as [|c m IH]; intros e out.
  { by intros [= <- <-]. }
  rewrite process_cons, letters_in_cons.
  destruct (decide (c ∈ alphabet)) as [Hc|Hc].
  - rewrite encryptChar_key by done.
    destruct (stepRotors e) as [[u e1]|] eqn:Hs; [|done].
    destruct (process m e1) as [[out1 e2]|] eqn:Hm; [|done].
    intros [= <- <-]. rewrite Nat.iter_succ_r. unfold press at 2.
    rewrite Hs. by eapply IH.
  - rewrite encryptChar_other by done.
    destruct (process m e) as [[out1 e2]|] eqn:Hm; [|done].
    intros [= <- <-]. by eapply IH.
Qed.

Lemma state_counts_letters_witness :
  match process (str "A, b C!") four_rotor_machine with
  | Ok (out, e') =>
      e' = Nat.iter (letters_in (str "A, b C!")) press four_rotor_machine
  | TypeError => False
  end.
Proof.
  destruct (process (str "A, b C!") four_rotor_machine) as [[out e']|] eqn:Hrun.
  - exact (state_counts_letters _ _ _ _ Hrun).
  - vm_compute in Hrun. discriminate Hrun.
Defined.

(** X14 -- The third rotor counts the letters: from a position [p] in
    [0,25], after a text with [k] letters it stands at [(p + k) mod 26], for
    every [k] (also beyond a full revolution) and whatever the other
    rotors do. *)
Theorem right_rotor_counts (m : jsstring) (e e' : Enigma) (out : jsstring)
    (r : Rotor) :
  rotors e !! 2%nat = Some r → 0 ≤ position r ≤ 25 →
  process m e = Ok (out, e') →
  position <$> rotors e' !! 2%nat
  = Some ((position r + Z.of_nat (letters_in m)) mod 26).
Proof.
  intros Hr Hp Hrun. pose proof (lookup_lt_Some _ _ _ Hr) as Hlen.
  destruct (process_run m e ltac:(lia)) as (out' & e'' & Hrun' & _ & _ & Hr').
  rewrite Hrun in Hrun'. injection Hrun' as _ <-.
  rewrite Hr', Hr. simpl. by rewrite iter_step.
Qed.

Lemma right_rotor_counts_witness :
  rotors four_rotor_machine !! 2%nat
  = Some (mkRotor (str "BDFHJLCPRTXVZNYEIWGAKMUSQO") 86%N 0 21)
  ∧ 0 ≤ 21 ≤ 25
  ∧ match process (str "ABCDEFGHIJKLMNOPQRSTUVWXYZABC") four_rotor_machine with
    | Ok (out, e') => position <$> rotors e' !! 2%nat = Some 24
    | TypeError => False
    end.
Proof.
  assert (0 ≤ 21 ≤ 25) as H by lia.
  split; [reflexivity|]. split; [exact H|].
  destruct (process (str "ABCDEFGHIJKLMNOPQRSTUVWXYZABC") four_rotor_machine)
    as [[out e']|] eqn:Hrun.
  - exact (right_rotor_counts _ four_rotor_machine e' out
             (mkRotor (str "BDFHJLCPRTXVZNYEIWGAKMUSQO") 86%N 0 21)
             eq_refl H Hrun).
  - vm_compute in Hrun. discriminate Hrun.
Defined.

(** ** Machines the constructor accepts without their being valid *)

Lemma backward_forward_chain rs c :
  Forall (λ r, wiring r ≡ₚ alphabet) rs → c ∈ alphabet →
  foldl (λ c r, backward r c) (foldr forward (Some c) rs) rs = Some c.
Proof.
  induction 1 as [|r rs Hperm _ IH]; intros Hc; simpl; [done|].
  destruct (forward_loop_letter rs c Hc) as (d & Hd & Hdin).
  rewrite Hd, backward_forward by done. rewrite <- Hd. by apply IH.
Qed.

Lemma forward_backward_chain rs c :
  Forall (λ r, wiring r ≡ₚ alphabet) rs → c ∈ alphabet →
  foldr forward (foldl (λ c r, backward r c) (Some c) rs) rs = Some c.
Proof.
  intros Hrs. revert c.
  induction Hrs as [|r rs Hperm _ IH]; intros c Hc; simpl; [done|].
  destruct (backward_letter r (Some c)) as (d & Hd & Hdin).
  rewrite Hd, IH by done. rewrite <- Hd. by apply forward_backward.
Qed.

Section sound_substitution.
Variable e : Enigma.
Hypothesis Hsound : sound_machine e.
Hypothesis Hpairs : one_pair_per_letter (plugboardPairs e) = true.

Lemma substitute_sound c :
  c ∈ alphabet →
  ∃ d, substitute e c = Some d ∧ d ∈ alphabet ∧ d ≠ c
       ∧ substitute e d = Some c.
Proof.
  intros Hc. destruct Hsound as [_ Hrs Hl].
  destruct (plugboardSwap_defined c (plugboardPairs e)) as (c1 & H1).
  pose proof (plugboardSwap_letter _ _ _ Hl Hc H1) as Hc1.
  destruct (forward_loop_letter (rotors e) c1 Hc1) as (c2 & H2 & Hc2).
  destruct (reflect_letter c2 Hc2) as (c3 & H3 & Hc3 & Hne & Hback).
  destruct (backward_loop_letter (rotors e) c3 Hc3) as (c4 & H4 & Hc4).
  destruct (plugboardSwap_defined c4 (plugboardPairs e)) as (d & Hd).
  pose proof (plugboardSwap_letter _ _ _ Hl Hc4 Hd) as Hdin.
  pose proof (forward_backward_chain _ _ Hrs Hc3) as Hfb. rewrite H4 in Hfb.
  pose proof (backward_forward_chain _ _ Hrs Hc1) as Hbf. rewrite H2 in Hbf.
  exists d. unfold substitute. rewrite H1, H2, H3, H4, Hd.
  split; [done|]. split; [done|]. split.
  - intros ->. apply (plugboardSwap_symmetric _ _ _ Hpairs) in Hd.
    rewrite H1 in Hd. simplify_eq.
  - rewrite (plugboardSwap_symmetric _ _ _ Hpairs Hd), Hfb, Hback, Hbf.
    by apply plugboardSwap_symmetric.
Qed.
End sound_substitution.

Lemma sound_setup e e' : sound_machine e → same_setup e e' → sound_machine e'.
Proof.
  intros [Hn Hrs Hl] (Hp & Hlen & Hk). split; [lia| |by rewrite Hp].
  apply Forall_lookup. intros k r' Hr'.
  destruct (lookup_lt_is_Some_2 (rotors e) k) as [r Hr].
  { rewrite <- Hlen. by eapply lookup_lt_Some. }
  destruct (Hk k r r' Hr Hr') as (-> & _).
  by apply (proj1 (Forall_lookup _ _) Hrs k r).
Qed.

Lemma encryptChar_sound e c :
  sound_machine e → one_pair_per_letter (plugboardPairs e) = true →
  c ∈ alphabet →
  ∃ e' d,
    encryptChar c e = Ok (Some d, e') ∧ sound_machine e'
    ∧ plugboardPairs e' = plugboardPairs e
    ∧ d ∈ alphabet ∧ d ≠ c ∧ encryptChar d e = Ok (Some c, e').
Proof.
  intros Hs Hp Hc.
  destruct (stepRotors_total e (sound_count e Hs)) as (e' & Hstep).
  pose proof (stepRotors_setup _ _ _ Hstep) as Hset.
  pose proof (sound_setup _ _ Hs Hset) as Hs'.
  destruct Hset as (Hpp & _). rewrite <- Hpp in Hp.
  destruct (substitute_sound e' Hs' Hp c Hc) as (d & Hd & Hdin & Hne & Hback).
  exists e', d. rewrite !encryptChar_key, Hstep by done.
  rewrite Hd, Hback. done.
Qed.

Lemma process_sound m e :
  sound_machine e → one_pair_per_letter (plugboardPairs e) = true →
  ∃ out e',
    process m e = Ok (out, e') ∧ process out e = Ok (m, e')
    ∧ Forall2 enciphered m out.
Proof.
  revert e. induction m as [|c m IH]; intros e Hs Hp.
  { exists [], e. by split_and!. }
  destruct (decide (c ∈ alphabet)) as [Hc|Hc].
  - destruct (encryptChar_sound e c Hs Hp Hc)
      as (e1 & d & Hkey & Hs1 & Hpp & Hd & Hne & Hback).
    destruct (IH e1 Hs1 ltac:(by rewrite Hpp)) as (out & e2 & Hout & Hrev & Hall).
    exists (d :: out), e2. rewrite !process_cons, Hkey, Hout, Hback, Hrev.
    split_and!; try done. constructor; [|done].
    unfold enciphered. by rewrite decide_True.
  - destruct (IH e Hs Hp) as (out & e2 & Hout & Hrev & Hall).
    exists (c :: out), e2.
    rewrite !process_cons, !encryptChar_other, Hout, Hrev by done.
    split_and!; try done. constructor; [|done].
    unfold enciphered. by rewrite decide_False.
Qed.

Lemma construct_usable K :
  usable_config K = true →
  ∃ A, construct K = Ok A ∧ sound_machine A
       ∧ one_pair_per_letter (plugboardPairs A) = true.
Proof.
  unfold usable_config. rewrite !andb_true_iff, bool_decide_eq_true.
  intros [[[Hn Hids] Hl] Hp].
  destruct (make_rotors_known (rotorIDs K) 0 (rotorPositions K)
              (ringSettings K) Hids) as (rs & Hrs & Hlen & Hall).
  unfold construct, Enigma_new. rewrite Hrs. eexists. split; [done|].
  split; [|done]. split; simpl; [lia| |done].
  apply Forall_lookup. intros k r Hr.
  destruct (Hall k r Hr) as (id & entry & Hid & He & ->). simpl.
  apply (proj1 (Forall_forall _ _) catalog_wirings).
  apply at_index_Some in He as [_ He]. by eapply list_elem_of_lookup_2.
Qed.

Lemma reaches_sound A e :
  sound_machine A → reaches A e →
  sound_machine e ∧ plugboardPairs e = plugboardPairs A.
Proof.
  intros HA. induction 1 as [|e1 c v e2 _ [Hs Hpp] Hkey]; [done|].
  pose proof (encryptChar_setup _ _ _ _ Hkey) as Hset. split.
  - by eapply sound_setup.
  - destruct Hset as (-> & _). done.
Qed.







(** ** promptEnigma *)

Lemma match_pairs_two a b rest :
  match_pairs (a :: b :: rest)
  = if includes alphabet a && includes alphabet b
    then (a, b) :: match_pairs rest
    else match_pairs (b :: rest).
Proof. reflexivity. Qed.

Lemma match_pairs_bounded (n : nat) (s : jsstring) :
  (length s ≤ n)%nat →
  letter_pairs (match_pairs s) = true
  ∧ (2 * length (match_pairs s) ≤ length s)%nat.
Proof.
  revert s. induction n as [|n IH]; intros s Hn.
  { destruct s as [|a s]; [|simpl in Hn; exfalso; lia].
    split; [reflexivity|simpl; constructor]. }
  destruct s as [|a [|b rest]].
  { split; [reflexivity|simpl; constructor]. }
  { split; [reflexivity|simpl; repeat constructor]. }
  cbn [length] in Hn. rewrite match_pairs_two.
  destruct (includes alphabet a && includes alphabet b) eqn:Hab.
  - destruct (IH rest ltac:(lia)) as [Hl Hb]. split.
    + cbn [letter_pairs forallb fst snd]. fold (letter_pairs (match_pairs rest)).
      by rewrite Hab, Hl.
    + cbn [length]. lia.
  - destruct (IH (b :: rest) ltac:(cbn [length]; lia)) as [Hl Hb].
    split; [done|]. cbn [length] in *. lia.
Qed.

Lemma match_pairs_letter_pairs s : letter_pairs (match_pairs s) = true.
Proof. by apply (match_pairs_bounded (length s)). Qed.

(** X18 -- The plugboard answer is read as letter pairs only: whatever is
    typed, every pair [promptEnigma] extracts is made of two upper-case
    letters, and there are at most half as many pairs as characters. *)
Theorem match_pairs_are_letters (upper : jsstring) :
  letter_pairs (match_pairs upper) = true
  ∧ (2 * length (match_pairs upper) ≤ length upper)%nat.
Proof. by apply (match_pairs_bounded (length upper)). Qed.

Lemma match_pairs_skip sep s : sep ∉ alphabet → match_pairs (sep :: s) = match_pairs s.
Proof.
  intros Hsep%includes_false. destruct s as [|b rest]; [done|].
  rewrite match_pairs_two. by rewrite Hsep.
Qed.

(** X19 -- Reading back a well-formed answer: letter pairs written one after
    the other with a non-letter between them ("AB CD") are extracted as
    exactly those pairs, in order. *)
Theorem match_pairs_reads_pairs (sep : char) (pairs : list (char * char)) :
  letter_pairs pairs = true → sep ∉ alphabet →
  match_pairs (render_pairs sep pairs) = pairs.
Proof.
  intros Hl Hsep. induction pairs as [|[a b] rest IH]; [done|].
  cbn [letter_pairs forallb fst snd] in Hl.
  apply andb_true_iff in Hl as [Hab Hl].
  specialize (IH Hl). cbn [render_pairs]. destruct rest as [|q rest].
  - rewrite match_pairs_two. by rewrite Hab.
  - rewrite match_pairs_two, Hab. by rewrite match_pairs_skip, IH.
Qed.

Lemma match_pairs_reads_pairs_witness :
  letter_pairs [(65, 66); (67, 68)]%N = true
  ∧ ((32%N : char) ∉ alphabet)
  ∧ match_pairs (render_pairs 32%N [(65, 66); (67, 68)]%N)
    = [(65, 66); (67, 68)]%N.
Proof.
  assert (letter_pairs [(65, 66); (67, 68)]%N = true) as Hl
    by (vm_compute; reflexivity).
  assert ((32%N : char) ∉ alphabet) as Hsep by by_evaluation.
  split; [exact Hl|]. split; [exact Hsep|].
  exact (match_pairs_reads_pairs 32%N [(65, 66); (67, 68)]%N Hl Hsep).
Defined.

(** X20 -- The program does not raise: for any message, any integers as
    positions and ring settings (any number of them, in or out of range) and
    any plugboard answer, [promptEnigma] prints an output, of the length of
    the message. *)
Theorem promptEnigma_prints (message : jsstring) (rotorPositions ringSettings : list Z)
    (upperPlugStr : jsstring) :
  ∃ out,
    promptEnigma_output message rotorPositions ringSettings upperPlugStr
    = Ok out
    ∧ length out = length message.
Proof.
  destruct (make_rotors_known [0; 1; 2] 0 rotorPositions ringSettings eq_refl)
    as (rs & Hrs & Hlen & _).
  unfold promptEnigma_output, Enigma_new. rewrite Hrs.
  destruct (process_run message (mkEnigma rs (match_pairs upperPlugStr)))
    as (out & e' & Hout & Hl & _); [simpl; rewrite Hlen; simpl; lia|].
  exists out. by rewrite Hout.
Qed.



(** ** The left rotor *)

Lemma step_moves x : step x ≠ x ∧ step (step x) ≠ x.
Proof.
  split; intros Heq; apply (f_equal position) in Heq;
    rewrite !step_position in Heq; Z.div_mod_to_equations; lia.
Qed.

Lemma stepping_controller_left l m r :
  (stepping_controller l m r).1.1 = l
  ∨ ((stepping_controller l m r).1.1 = step l
     ∧ (stepping_controller l m r).1.2 ≠ m).
Proof.
  unfold stepping_controller.
  destruct (atNotch r), (atNotch m || _); simpl; auto;
    right; (split; [done|apply step_moves]).
Qed.

(** X22 -- The left rotor never moves alone: in one key press it stays or
    takes one step, and when it steps the middle rotor has moved too. *)
Theorem left_moves_with_middle (e e' : Enigma) (u : unit) (l m l' m' : Rotor) :
  stepRotors e = Ok (u, e') →
  rotors e !! 0%nat = Some l → rotors e !! 1%nat = Some m →
  rotors e' !! 0%nat = Some l' → rotors e' !! 1%nat = Some m' →
  l' = l ∨ (l' = step l ∧ m' ≠ m).
Proof.
  intros Hs Hl Hm Hl' Hm'. pose proof (stepRotors_needs_three _ _ _ Hs) as Hlen.
  destruct e as [[|l0 [|m0 [|r0 rest]]] pairs]; simpl in Hlen; try lia.
  rewrite stepRotors_three in Hs.
  pose proof (stepping_controller_left l0 m0 r0) as Hleft.
  destruct (stepping_controller l0 m0 r0) as [[l1 m1] r1].
  injection Hs as _ <-. simpl in *. by simplify_eq.
Qed.

Lemma left_moves_with_middle_witness :
  match stepRotors four_rotor_machine with
  | Ok (u, e') =>
      ∃ l m l' m',
        rotors four_rotor_machine !! 0%nat = Some l
        ∧ rotors four_rotor_machine !! 1%nat = Some m
        ∧ rotors e' !! 0%nat = Some l' ∧ rotors e' !! 1%nat = Some m'
        ∧ (l' = l ∨ (l' = step l ∧ m' ≠ m))
  | TypeError => False
  end.
Proof.
  destruct (stepRotors four_rotor_machine) as [[u e']|] eqn:Hs.
  - assert (e' = press four_rotor_machine) as He'
      by (unfold press; rewrite Hs; reflexivity).
    eexists _, _, _, _.
    split; [reflexivity|]. split; [reflexivity|].
    split; [rewrite He'; vm_compute; reflexivity|].
    split; [rewrite He'; vm_compute; reflexivity|].
    eapply (left_moves_with_middle _ _ u _ _ _ _ Hs); try reflexivity;
      rewrite He'; vm_compute; reflexivity.
  - vm_compute in Hs. discriminate Hs.
Defined.
